(** * The evince job queue (shell/ev-job-queue.c)

    A shallow embedding of the job scheduler of evince and the proofs of
    its dispatch properties.

    Conventions of the embedding:
    - a [GQueue] of the source is the list of the jobs it holds, head
      first; the ten global queue pointers are the constructors of
      [GQueue] and the queues themselves are the fields of [Queues];
    - the global variables of the file are the fields of [State], and
      every function of the source takes the state as its last argument
      and returns the new one;
    - [g_assert_not_reached] aborts the process: functions that can reach
      it return a [result], whose [AssertNotReached] is the abort;
    - the calls that leave the file (the [ev_job_*_run] functions, the
      signal connection, the idle callback) are appended to the [calls]
      field in the order they are made;
    - the mutex is a critical section: a function that locks it runs its
      body in one step.  Reference counts are not part of the model. *)

From Stdlib Require Import List Bool Arith Lia Permutation.
Import ListNotations.

(** ** Jobs *)

(** Modelled from the spec: ev-jobs.h is not part of the sources.  The six
    job classes tested by the [EV_IS_JOB_*] macros are the kinds of §3. *)
Inductive EvJobKind : Type :=
| Render | Thumbnail | Load | Links | Fonts | Print.

(** Modelled from the spec: the two values of the [EvJobPriority] enum of
    ev-jobs.h (priority ∈ {High, Low} in §3). *)
Inductive EvJobPriority : Type :=
| EV_JOB_PRIORITY_LOW
| EV_JOB_PRIORITY_HIGH.

(** Modelled from the spec: the [EvJob] structure of ev-jobs.h is not part
    of the sources.  An [EvJob *] is the address of the object together
    with the two immutable attributes the file reads from it (§3): its
    kind and its mode, the [async] field.  Two pointers are equal when
    these values are. *)
Record EvJob : Type := mkJob {
  job_addr : nat;
  job_kind : EvJobKind;
  async : bool
}.

Definition EvJobKind_eq_dec (a b : EvJobKind) : {a = b} + {a <> b}.
Proof. decide equality. Defined.

Definition EvJob_eq_dec (a b : EvJob) : {a = b} + {a <> b}.
Proof. decide equality; [apply Bool.bool_dec | apply EvJobKind_eq_dec | apply Nat.eq_dec]. Defined.

Definition EV_IS_JOB_RENDER (job : EvJob) : bool :=
  match job_kind job with Render => true | _ => false end.
Definition EV_IS_JOB_THUMBNAIL (job : EvJob) : bool :=
  match job_kind job with Thumbnail => true | _ => false end.
Definition EV_IS_JOB_LOAD (job : EvJob) : bool :=
  match job_kind job with Load => true | _ => false end.
Definition EV_IS_JOB_LINKS (job : EvJob) : bool :=
  match job_kind job with Links => true | _ => false end.
Definition EV_IS_JOB_FONTS (job : EvJob) : bool :=
  match job_kind job with Fonts => true | _ => false end.
Definition EV_IS_JOB_PRINT (job : EvJob) : bool :=
  match job_kind job with Print => true | _ => false end.

(** ** Results of functions that may hit [g_assert_not_reached] *)

Inductive result (A : Type) : Type :=
| Ok (a : A)
| AssertNotReached.
Arguments Ok {A} a.
Arguments AssertNotReached {A}.

Definition bind {A B : Type} (r : result A) (k : A -> result B) : result B :=
  match r with
  | Ok a => k a
  | AssertNotReached => AssertNotReached
  end.

Notation "x <- r ;; k" := (bind r (fun x => k))
  (at level 61, r at next level, right associativity).

(** ** GLib queues, as lists *)

Module GLib.

(** [g_queue_find]: the position of the first link whose data is [job]. *)
Fixpoint g_queue_find (l : list EvJob) (job : EvJob) : option nat :=
  match l with
  | [] => None
  | x :: l' =>
      if EvJob_eq_dec x job then Some 0
      else match g_queue_find l' job with
           | Some i => Some (S i)
           | None => None
           end
  end.

(** [g_queue_delete_link]: unlink the element at a position. *)
Fixpoint g_queue_delete_link (l : list EvJob) (link : nat) : list EvJob :=
  match l, link with
  | [], _ => []
  | _ :: l', 0 => l'
  | x :: l', S i => x :: g_queue_delete_link l' i
  end.

Definition g_queue_push_tail (l : list EvJob) (job : EvJob) : list EvJob :=
  l ++ [job].

Definition g_queue_pop_head (l : list EvJob) : option EvJob * list EvJob :=
  match l with
  | [] => (None, [])
  | x :: l' => (Some x, l')
  end.

Definition g_queue_is_empty (l : list EvJob) : bool :=
  match l with [] => true | _ :: _ => false end.

End GLib.

(** ** The global state of the file *)

(** The ten queue pointers (lines 10-22). *)
Inductive GQueue : Type :=
| links_queue
| render_queue_high
| render_queue_low
| thumbnail_queue_high
| thumbnail_queue_low
| load_queue
| fonts_queue
| print_queue
| async_render_queue_high
| async_render_queue_low.

Definition GQueue_eq_dec (a b : GQueue) : {a = b} + {a <> b}.
Proof. decide equality. Defined.

(** What the ten queues hold. *)
Record Queues : Type := mkQueues {
  in_links : list EvJob;
  in_render_high : list EvJob;
  in_render_low : list EvJob;
  in_thumbnail_high : list EvJob;
  in_thumbnail_low : list EvJob;
  in_load : list EvJob;
  in_fonts : list EvJob;
  in_print : list EvJob;
  in_async_render_high : list EvJob;
  in_async_render_low : list EvJob
}.

Definition contents (q : GQueue) (qs : Queues) : list EvJob :=
  match q with
  | links_queue => in_links qs
  | render_queue_high => in_render_high qs
  | render_queue_low => in_render_low qs
  | thumbnail_queue_high => in_thumbnail_high qs
  | thumbnail_queue_low => in_thumbnail_low qs
  | load_queue => in_load qs
  | fonts_queue => in_fonts qs
  | print_queue => in_print qs
  | async_render_queue_high => in_async_render_high qs
  | async_render_queue_low => in_async_render_low qs
  end.

Definition store (q : GQueue) (l : list EvJob) (qs : Queues) : Queues :=
  let (li, rh, rl, th, tl, lo, fo, pr, ah, al) := qs in
  match q with
  | links_queue => mkQueues l rh rl th tl lo fo pr ah al
  | render_queue_high => mkQueues li l rl th tl lo fo pr ah al
  | render_queue_low => mkQueues li rh l th tl lo fo pr ah al
  | thumbnail_queue_high => mkQueues li rh rl l tl lo fo pr ah al
  | thumbnail_queue_low => mkQueues li rh rl th l lo fo pr ah al
  | load_queue => mkQueues li rh rl th tl l fo pr ah al
  | fonts_queue => mkQueues li rh rl th tl lo l pr ah al
  | print_queue => mkQueues li rh rl th tl lo fo l ah al
  | async_render_queue_high => mkQueues li rh rl th tl lo fo pr l al
  | async_render_queue_low => mkQueues li rh rl th tl lo fo pr ah l
  end.

(** The calls that leave the file. *)
Inductive Call : Type :=
| ev_job_thumbnail_run (job : EvJob)
| ev_job_links_run (job : EvJob)
| ev_job_load_run (job : EvJob)
| ev_job_render_run (job : EvJob)
| ev_job_fonts_run (job : EvJob)
| ev_job_print_run (job : EvJob)
| g_signal_connect_finished (job : EvJob)   (* job_finished_cb connected to "finished" *)
| g_idle_add_notify_finished (job : EvJob). (* notify_finished queued on the main loop *)

Definition Call_eq_dec (a b : Call) : {a = b} + {a <> b}.
Proof. decide equality; apply EvJob_eq_dec. Defined.

(** [queues] and [async_rendering] are the variables of the file.
    [calls] is the trace of outgoing calls.  [in_flight] holds the async
    jobs whose [ev_job_render_run] has been called and whose "finished"
    signal has not been emitted yet: the operations the backend is still
    working on. *)
Record State : Type := mkState {
  queues : Queues;
  async_rendering : bool;
  calls : list Call;
  in_flight : list EvJob
}.

Definition queue (q : GQueue) (st : State) : list EvJob :=
  contents q (queues st).

Definition set_queue (q : GQueue) (l : list EvJob) (st : State) : State :=
  mkState (store q l (queues st)) (async_rendering st) (calls st) (in_flight st).

Definition set_async_rendering (b : bool) (st : State) : State :=
  mkState (queues st) b (calls st) (in_flight st).

Definition call (c : Call) (st : State) : State :=
  mkState (queues st) (async_rendering st) (calls st ++ [c]) (in_flight st).

Definition set_in_flight (l : list EvJob) (st : State) : State :=
  mkState (queues st) (async_rendering st) (calls st) l.

(** Queue primitives on a queue of the state. *)
Definition g_queue_pop_head (q : GQueue) (st : State) : option EvJob * State :=
  let (job, l) := GLib.g_queue_pop_head (queue q st) in
  (job, set_queue q l st).

Definition g_queue_push_tail (q : GQueue) (job : EvJob) (st : State) : State :=
  set_queue q (GLib.g_queue_push_tail (queue q st) job) st.

Definition g_queue_is_empty (q : GQueue) (st : State) : bool :=
  GLib.g_queue_is_empty (queue q st).

(** ** The functions of the file *)

(** Lines 27-40. *)
Definition remove_job_from_queue_locked (q : GQueue) (job : EvJob) (st : State)
  : bool * State :=
  match GLib.g_queue_find (queue q st) job with
  | Some list => (true, set_queue q (GLib.g_queue_delete_link (queue q st) list) st)
  | None => (false, st)
  end.

(** Lines 42-46. *)
Definition remove_job_from_async_queue (q : GQueue) (job : EvJob) (st : State)
  : bool * State :=
  remove_job_from_queue_locked q job st.

(** Lines 48-53. *)
Definition add_job_to_async_queue (q : GQueue) (job : EvJob) (st : State) : State :=
  g_queue_push_tail q job st.

(** Lines 63-70.  The broadcast on [render_cond] changes no variable; the
    waiting worker sees it as a return of its [g_cond_wait]. *)
Definition add_job_to_queue_locked (q : GQueue) (job : EvJob) (st : State) : State :=
  g_queue_push_tail q job st.

(** The chain of class tests of lines 126-137, as the call it makes. *)
Definition run_call (job : EvJob) : list Call :=
  if EV_IS_JOB_THUMBNAIL job then [ev_job_thumbnail_run job]
  else if EV_IS_JOB_LINKS job then [ev_job_links_run job]
  else if EV_IS_JOB_LOAD job then [ev_job_load_run job]
  else if EV_IS_JOB_RENDER job then [ev_job_render_run job]
  else if EV_IS_JOB_FONTS job then [ev_job_fonts_run job]
  else if EV_IS_JOB_PRINT job then [ev_job_print_run job]
  else [].

(** Lines 111-146.  The run function of a blocking job returns when the
    work is done; the one of an async job returns at once and the job
    stays in flight until its "finished" signal. *)
Definition handle_job (job : EvJob) (st : State) : result State :=
  st1 <- (if async job then
            let st' := set_async_rendering true st in
            if EV_IS_JOB_RENDER job
            then Ok (call (g_signal_connect_finished job) st')
            else AssertNotReached
          else Ok st) ;;
  let st2 := fold_left (fun s c => call c s) (run_call job) st1 in
  let st3 := if async job then set_in_flight (in_flight st2 ++ [job]) st2 else st2 in
  Ok (if negb (async job) then call (g_idle_add_notify_finished job) st3 else st3).

(** Lines 166-204. *)
Definition search_for_jobs_unlocked (st : State) : option EvJob * State :=
  match g_queue_pop_head render_queue_high st with
  | (Some job, st') => (Some job, st')
  | (None, st1) =>
  match g_queue_pop_head thumbnail_queue_high st1 with
  | (Some job, st') => (Some job, st')
  | (None, st2) =>
  match g_queue_pop_head render_queue_low st2 with
  | (Some job, st') => (Some job, st')
  | (None, st3) =>
  match g_queue_pop_head links_queue st3 with
  | (Some job, st') => (Some job, st')
  | (None, st4) =>
  match g_queue_pop_head load_queue st4 with
  | (Some job, st') => (Some job, st')
  | (None, st5) =>
  match g_queue_pop_head thumbnail_queue_low st5 with
  | (Some job, st') => (Some job, st')
  | (None, st6) =>
  match g_queue_pop_head fonts_queue st6 with
  | (Some job, st') => (Some job, st')
  | (None, st7) =>
  match g_queue_pop_head print_queue st7 with
  | (Some job, st') => (Some job, st')
  | (None, st8) => (None, st8)
  end end end end end end end end.

(** Lines 215-226. *)
Definition no_jobs_available_unlocked (st : State) : bool :=
  g_queue_is_empty render_queue_high st
  && g_queue_is_empty render_queue_low st
  && g_queue_is_empty links_queue st
  && g_queue_is_empty load_queue st
  && g_queue_is_empty thumbnail_queue_high st
  && g_queue_is_empty thumbnail_queue_low st
  && g_queue_is_empty fonts_queue st
  && g_queue_is_empty print_queue st.

(** Lines 269-285. *)
Definition ev_job_queue_run_next (st : State) : result State :=
  let (job, st1) := g_queue_pop_head async_render_queue_high st in
  let (job', st2) :=
    match job with
    | None => g_queue_pop_head async_render_queue_low st1
    | Some _ => (job, st1)
    end in
  match job' with
  | Some j => handle_job j st2
  | None => Ok st2
  end.

(** Lines 95-101. *)
Definition job_finished_cb (job : EvJob) (st : State) : result State :=
  ev_job_queue_run_next (set_async_rendering false st).

(** Lines 294-315: ten empty queues, nothing rendering. *)
Definition ev_job_queue_init : State :=
  mkState (mkQueues [] [] [] [] [] [] [] [] [] []) false [] [].

(** Lines 317-356. *)
Definition find_queue (job : EvJob) (priority : EvJobPriority) : result GQueue :=
  if async job then
    if EV_IS_JOB_RENDER job then
      match priority with
      | EV_JOB_PRIORITY_HIGH => Ok async_render_queue_high
      | _ => Ok async_render_queue_low
      end
    else AssertNotReached
  else
    if EV_IS_JOB_RENDER job then
      match priority with
      | EV_JOB_PRIORITY_HIGH => Ok render_queue_high
      | _ => Ok render_queue_low
      end
    else if EV_IS_JOB_THUMBNAIL job then
      match priority with
      | EV_JOB_PRIORITY_HIGH => Ok thumbnail_queue_high
      | _ => Ok thumbnail_queue_low
      end
    else if EV_IS_JOB_LOAD job then Ok load_queue
    else if EV_IS_JOB_LINKS job then Ok links_queue
    else if EV_IS_JOB_FONTS job then Ok fonts_queue
    else if EV_IS_JOB_PRINT job then Ok print_queue
    else AssertNotReached.

(** Lines 358-378. *)
Definition ev_job_queue_add_job (job : EvJob) (priority : EvJobPriority) (st : State)
  : result State :=
  q <- find_queue job priority ;;
  if negb (async job) then
    Ok (add_job_to_queue_locked q job st)
  else
    let st1 := add_job_to_async_queue q job st in
    if negb (async_rendering st1) then ev_job_queue_run_next st1
    else Ok st1.

(** Lines 380-395. *)
Definition move_job_async (job : EvJob) (old_queue new_queue : GQueue) (st : State)
  : bool * State :=
  match remove_job_from_queue_locked old_queue job st with
  | (true, st1) => (true, add_job_to_async_queue new_queue job st1)
  | (false, st1) => (false, st1)
  end.

(** Lines 397-414. *)
Definition move_job (job : EvJob) (old_queue new_queue : GQueue) (st : State)
  : bool * State :=
  match remove_job_from_queue_locked old_queue job st with
  | (true, st1) => (true, add_job_to_queue_locked new_queue job st1)
  | (false, st1) => (false, st1)
  end.

(** Lines 416-459. *)
Definition ev_job_queue_update_job (job : EvJob) (new_priority : EvJobPriority)
  (st : State) : result (bool * State) :=
  if async job then
    if EV_IS_JOB_RENDER job then
      match new_priority with
      | EV_JOB_PRIORITY_LOW =>
          Ok (move_job_async job async_render_queue_high async_render_queue_low st)
      | EV_JOB_PRIORITY_HIGH =>
          Ok (move_job_async job async_render_queue_low async_render_queue_high st)
      end
    else AssertNotReached
  else
    if EV_IS_JOB_THUMBNAIL job then
      match new_priority with
      | EV_JOB_PRIORITY_LOW =>
          Ok (move_job job thumbnail_queue_high thumbnail_queue_low st)
      | EV_JOB_PRIORITY_HIGH =>
          Ok (move_job job thumbnail_queue_low thumbnail_queue_high st)
      end
    else if EV_IS_JOB_RENDER job then
      match new_priority with
      | EV_JOB_PRIORITY_LOW =>
          Ok (move_job job render_queue_high render_queue_low st)
      | EV_JOB_PRIORITY_HIGH =>
          Ok (move_job job render_queue_low render_queue_high st)
      end
    else AssertNotReached.

(** [retval = retval || remove (low, job)]: the right operand is evaluated
    only when [retval] is false. *)
Definition or_else (r : bool * State) (k : State -> bool * State) : bool * State :=
  let (retval, st) := r in
  if retval then (true, st) else k st.

(** Lines 461-500. *)
Definition ev_job_queue_remove_job (job : EvJob) (st : State) : result (bool * State) :=
  if async job then
    if EV_IS_JOB_RENDER job then
      Ok (or_else (remove_job_from_async_queue async_render_queue_high job st)
                  (remove_job_from_async_queue async_render_queue_low job))
    else AssertNotReached
  else
    if EV_IS_JOB_THUMBNAIL job then
      Ok (or_else (remove_job_from_queue_locked thumbnail_queue_high job st)
                  (remove_job_from_queue_locked thumbnail_queue_low job))
    else if EV_IS_JOB_RENDER job then
      Ok (or_else (remove_job_from_queue_locked render_queue_high job st)
                  (remove_job_from_queue_locked render_queue_low job))
    else if EV_IS_JOB_LINKS job then
      Ok (remove_job_from_queue_locked links_queue job st)
    else if EV_IS_JOB_LOAD job then
      Ok (remove_job_from_queue_locked load_queue job st)
    else if EV_IS_JOB_FONTS job then
      Ok (remove_job_from_queue_locked fonts_queue job st)
    else if EV_IS_JOB_PRINT job then
      Ok (remove_job_from_queue_locked print_queue job st)
    else AssertNotReached.

(** ** The worker thread (lines 239-261)

    The worker is the only code that blocks, so it is modelled by its
    control points.  While it is blocked inside [g_cond_wait] the mutex is
    released and the other threads work on the state: [others] is what
    they did by the time the wait returns.  The identity stands for a
    wake-up that finds the state as it was left. *)
Inductive Location : Type :=
| at_lock                          (* line 245 *)
| at_cond_wait                     (* line 247 *)
| at_search                        (* line 250 *)
| at_handle (job : option EvJob).  (* line 254 *)

Definition ev_render_thread_step (others : State -> State) (loc : Location) (st : State)
  : result (Location * State) :=
  match loc with
  | at_lock =>
      if no_jobs_available_unlocked st then Ok (at_cond_wait, st)
      else Ok (at_search, st)
  | at_cond_wait => Ok (at_search, others st)
  | at_search =>
      let (job, st') := search_for_jobs_unlocked st in
      Ok (at_handle job, st')
  | at_handle (Some job) =>
      st' <- handle_job job st ;; Ok (at_lock, st')
  | at_handle None => Ok (at_lock, st)
  end.

(** The [while (TRUE)] loop, run for one step per element of [others]. *)
Fixpoint ev_render_thread (others : list (State -> State)) (loc : Location) (st : State)
  : result (Location * State) :=
  match others with
  | [] => Ok (loc, st)
  | o :: rest =>
      c <- ev_render_thread_step o loc st ;;
      ev_render_thread rest (fst c) (snd c)
  end.

(** ** The "finished" signal of an async job *)

(** The number of times [job_finished_cb] was connected to a job. *)
Definition handlers (job : EvJob) (st : State) : nat :=
  count_occ Call_eq_dec (calls st) (g_signal_connect_finished job).

Fixpoint run_handlers (n : nat) (job : EvJob) (st : State) : result State :=
  match n with
  | 0 => Ok st
  | S n' => st' <- job_finished_cb job st ;; run_handlers n' job st'
  end.

(** The jobs in flight once [job] has finished. *)
Definition landed (job : EvJob) (l : list EvJob) : list EvJob :=
  match GLib.g_queue_find l job with
  | Some i => GLib.g_queue_delete_link l i
  | None => l
  end.

(** Modelled from the spec: [ev_job_finished] (ev-jobs.c) is not part of the
    sources.  §4.3 and §6: the work of a non-blocking render job delivers
    its completion signal later, when the operation has truly finished.
    The job is then no longer in flight, and the signal runs every handler
    connected to it: [job_finished_cb], once for each [g_signal_connect]
    that [handle_job] made on the job. *)
Definition ev_job_finished (job : EvJob) (st : State) : result State :=
  run_handlers (handlers job st) job (set_in_flight (landed job (in_flight st)) st).

(** A job handed to [ev_job_queue_add_job] is newly created (§6): it is in
    no queue and [handle_job] has never seen it. *)
Definition newly_created (job : EvJob) (st : State) : Prop :=
  (forall q, ~ In job (queue q st)) /\ handlers job st = 0.

(** The states the async dispatcher goes through: submissions of async
    render jobs and completions of the job in flight, in any order. *)
Inductive async_reachable : State -> Prop :=
| reach_init : async_reachable ev_job_queue_init
| reach_submit : forall st job priority st',
    async_reachable st ->
    async job = true -> job_kind job = Render -> newly_created job st ->
    ev_job_queue_add_job job priority st = Ok st' ->
    async_reachable st'
| reach_finished : forall st job st',
    async_reachable st ->
    In job (in_flight st) ->
    ev_job_finished job st = Ok st' ->
    async_reachable st'.

(** ** The blocking side as a sequence of operations

    Producers add blocking jobs and the worker takes its turns: one turn
    is a search followed by the handling of the job found. *)
Inductive SyncOp : Type :=
| Add (job : EvJob) (priority : EvJobPriority)
| WorkerTurn.

(** The queue the next search pops from: the first non-empty one in the
    order of the comment above [search_for_jobs_unlocked]. *)
Definition scan_order : list GQueue :=
  [render_queue_high; thumbnail_queue_high; render_queue_low; links_queue;
   load_queue; thumbnail_queue_low; fonts_queue; print_queue].

Definition first_non_empty (st : State) : option GQueue :=
  find (fun q => negb (g_queue_is_empty q st)) scan_order.

Definition worker_turn (st : State) : result (option (GQueue * EvJob) * State) :=
  let source := first_non_empty st in
  let (job, st1) := search_for_jobs_unlocked st in
  match job, source with
  | Some j, Some q => st2 <- handle_job j st1 ;; Ok (Some (q, j), st2)
  | Some j, None => st2 <- handle_job j st1 ;; Ok (None, st2)
  | None, _ => Ok (None, st1)
  end.

(** Runs the operations and returns the jobs popped, oldest first, each
    with the queue it came from. *)
Fixpoint run_sync (ops : list SyncOp) (st : State)
  : result (list (GQueue * EvJob) * State) :=
  match ops with
  | [] => Ok ([], st)
  | Add job priority :: rest =>
      st1 <- ev_job_queue_add_job job priority st ;;
      run_sync rest st1
  | WorkerTurn :: rest =>
      r <- worker_turn st ;;
      r' <- run_sync rest (snd r) ;;
      Ok (match fst r with Some e => e :: fst r' | None => fst r' end, snd r')
  end.

(** The jobs a sequence of operations appends to queue [q]. *)
Fixpoint added_to (q : GQueue) (ops : list SyncOp) : list EvJob :=
  match ops with
  | [] => []
  | Add job priority :: rest =>
      match find_queue job priority with
      | Ok q' => if GQueue_eq_dec q q' then job :: added_to q rest else added_to q rest
      | AssertNotReached => added_to q rest
      end
  | WorkerTurn :: rest => added_to q rest
  end.

Definition popped_from (q : GQueue) (log : list (GQueue * EvJob)) : list EvJob :=
  map snd (filter (fun e => if GQueue_eq_dec q (fst e) then true else false) log).

(** The jobs whose run function was called, in the order of the calls. *)
Definition executed (st : State) : list EvJob :=
  flat_map (fun c => match c with
                     | ev_job_thumbnail_run j | ev_job_links_run j | ev_job_load_run j
                     | ev_job_render_run j | ev_job_fonts_run j | ev_job_print_run j => [j]
                     | _ => []
                     end) (calls st).

(** ** Predicates used by the statements *)

Definition sync_queue (q : GQueue) : Prop :=
  q <> async_render_queue_high /\ q <> async_render_queue_low.

(** §3: only render jobs may be non-blocking. *)
Definition well_formed (job : EvJob) : Prop :=
  async job = true -> job_kind job = Render.

Definition in_no_queue (job : EvJob) (st : State) : Prop :=
  forall q, ~ In job (queue q st).

(** The number of occurrences of a job over the ten queues. *)
Definition all_queues : list GQueue :=
  [links_queue; render_queue_high; render_queue_low; thumbnail_queue_high;
   thumbnail_queue_low; load_queue; fonts_queue; print_queue;
   async_render_queue_high; async_render_queue_low].

Definition occurrences (job : EvJob) (st : State) : nat :=
  list_sum (map (fun q => count_occ EvJob_eq_dec (queue q st) job) all_queues).

(** The queues [ev_job_queue_remove_job] looks into for a job, in the
    order it does. *)
Definition candidates (job : EvJob) : list GQueue :=
  if async job then [async_render_queue_high; async_render_queue_low]
  else match job_kind job with
       | Render => [render_queue_high; render_queue_low]
       | Thumbnail => [thumbnail_queue_high; thumbnail_queue_low]
       | Load => [load_queue]
       | Links => [links_queue]
       | Fonts => [fonts_queue]
       | Print => [print_queue]
       end.

(** The rank of a queue in the search of the worker: its position in
    [scan_order].  The async queues are not searched. *)
Definition rank (q : GQueue) : nat :=
  match q with
  | render_queue_high => 0
  | thumbnail_queue_high => 1
  | render_queue_low => 2
  | links_queue => 3
  | load_queue => 4
  | thumbnail_queue_low => 5
  | fonts_queue => 6
  | print_queue => 7
  | async_render_queue_high => 8
  | async_render_queue_low => 9
  end.

(** The kinds [ev_job_queue_update_job] has queues of two priorities for. *)
Definition has_priority (job : EvJob) : Prop :=
  job_kind job = Render \/ (job_kind job = Thumbnail /\ async job = false).

Definition opposite (p : EvJobPriority) : EvJobPriority :=
  match p with
  | EV_JOB_PRIORITY_LOW => EV_JOB_PRIORITY_HIGH
  | EV_JOB_PRIORITY_HIGH => EV_JOB_PRIORITY_LOW
  end.

(** The jobs of the two async queues can be handled without reaching the
    assertion of [handle_job]. *)
Definition async_queues_well_formed (st : State) : Prop :=
  forall job,
    In job (queue async_render_queue_high st ++ queue async_render_queue_low st) ->
    well_formed job.

(** The jobs that wait in the two async queues, in the order
    [ev_job_queue_run_next] takes them. *)
Definition queued (st : State) : list EvJob :=
  queue async_render_queue_high st ++ queue async_render_queue_low st.

(** What holds of every state of the dispatcher: the waiting jobs are
    distinct async render jobs that were never handled; and either nothing
    is rendering, the flag is clear and nothing waits, or exactly one job
    is in flight, with one completion callback connected to it, and the
    flag is set. *)
Definition async_inv (st : State) : Prop :=
  NoDup (queued st) /\
  (forall j, In j (queued st) ->
             async j = true /\ job_kind j = Render /\ handlers j st = 0) /\
  ((async_rendering st = false /\ in_flight st = [] /\ queued st = []) \/
   (async_rendering st = true /\
    exists j, in_flight st = [j] /\ handlers j st = 1)).

(** The queues of the worker hold blocking jobs: [find_queue] sends no
    other job there. *)
Definition blocking_queues_hold_blocking_jobs (st : State) : Prop :=
  forall q job, sync_queue q -> In job (queue q st) -> async job = false.

(** Every job queued in [st'] was queued in [st], or is [job]. *)
Definition within (st' st : State) (job : EvJob) : Prop :=
  forall q j, In j (queue q st') -> j = job \/ In j (queue q st).

(** ** Further definitions *)

(** Lines 80-86: the idle callback of a blocking job.  It emits the
    "finished" signal of the job and returns [FALSE], so that the main loop
    drops the idle source after this one call. *)
Definition notify_finished (job : EvJob) (st : State) : result (bool * State) :=
  st' <- ev_job_finished job st ;; Ok (false, st').

(** [n] searches in a row, with no addition in between: the jobs found,
    in the order they are found, and the state left. *)
Fixpoint search_n (n : nat) (st : State) : list EvJob * State :=
  match n with
  | 0 => ([], st)
  | S n' =>
      match search_for_jobs_unlocked st with
      | (Some job, st1) =>
          let (jobs, st2) := search_n n' st1 in (job :: jobs, st2)
      | (None, st1) => ([], st1)
      end
  end.

(** The jobs of a queue other than [job], in their order. *)
Definition others_than (job : EvJob) (l : list EvJob) : list EvJob :=
  remove EvJob_eq_dec job l.

(** Every queued job is a job of the data model and sits in a queue of
    its own kind and mode. *)
Definition routed (st : State) : Prop :=
  forall q job, In job (queue q st) -> well_formed job /\ In q (candidates job).

(** Every job queued in [st'] was in the same queue in [st], or is [job]
    in [q0]. *)
Definition arrives (st' st : State) (q0 : GQueue) (job : EvJob) : Prop :=
  forall q j, In j (queue q st') -> In j (queue q st) \/ (q = q0 /\ j = job).

(** The worker is at a point where the job it holds, if any, is a
    blocking job, and so are the jobs of its queues. *)
Definition worker_safe (loc : Location) (st : State) : Prop :=
  blocking_queues_hold_blocking_jobs st /\
  forall job, loc = at_handle (Some job) -> async job = false.

(** What the other threads do keeps blocking jobs in the queues of the
    worker. *)
Definition keeps_blocking (f : State -> State) : Prop :=
  forall st, blocking_queues_hold_blocking_jobs st ->
             blocking_queues_hold_blocking_jobs (f st).

(** No completion callback is connected to a blocking job and no blocking
    job is in flight: [handle_job] connects and launches async jobs only. *)
Definition blocking_jobs_unconnected (st : State) : Prop :=
  forall job, async job = false ->
              handlers job st = 0 /\ ~ In job (in_flight st).

(** The calls the worker makes for a job it popped. *)
Definition worker_calls (job : EvJob) : list Call :=
  run_call job ++ [g_idle_add_notify_finished job].

(** The backend completes the job in flight, then the one started by
    that completion, and so on, up to [n] times. *)
Fixpoint complete (n : nat) (st : State) : result State :=
  match n with
  | 0 => Ok st
  | S n' =>
      match in_flight st with
      | [] => Ok st
      | job :: _ => st' <- ev_job_finished job st ;; complete n' st'
      end
  end.

(** * Proofs *)

(** ** Queues of the state *)

Section QueueStore.

Lemma contents_store_same q l qs : contents q (store q l qs) = l.
Proof. destruct qs, q; reflexivity. Qed.

Lemma contents_store_other q q' l qs :
  q <> q' -> contents q' (store q l qs) = contents q' qs.
Proof. destruct qs, q, q'; intros H; try reflexivity; contradiction H; reflexivity. Qed.

Lemma store_contents q qs : store q (contents q qs) qs = qs.
Proof. destruct qs, q; reflexivity. Qed.

Lemma queue_set_queue_same q l st : queue q (set_queue q l st) = l.
Proof. apply contents_store_same. Qed.

Lemma queue_set_queue_other q q' l st :
  q <> q' -> queue q' (set_queue q l st) = queue q' st.
Proof. apply contents_store_other. Qed.

Lemma set_queue_same q st : set_queue q (queue q st) st = st.
Proof. destruct st; unfold set_queue, queue; simpl; now rewrite store_contents. Qed.

Lemma pop_head_empty q st :
  queue q st = [] -> g_queue_pop_head q st = (None, st).
Proof.
  intros H. unfold g_queue_pop_head. rewrite H. simpl.
  now rewrite <- H, set_queue_same.
Qed.

Lemma pop_head_cons q st job rest :
  queue q st = job :: rest -> g_queue_pop_head q st = (Some job, set_queue q rest st).
Proof. intros H. unfold g_queue_pop_head. now rewrite H. Qed.

Lemma rank_scan_order q :
  In q scan_order <-> nth_error scan_order (rank q) = Some q.
Proof.
  split.
  - simpl. intros H. repeat (destruct H as [<- | H]; [reflexivity |]). contradiction.
  - intros H. eapply nth_error_In, H.
Qed.

End QueueStore.

(** ** The search of the worker *)

Section Search.

Lemma search_pops q st job rest :
  In q scan_order ->
  queue q st = job :: rest ->
  (forall q', rank q' < rank q -> queue q' st = []) ->
  search_for_jobs_unlocked st = (Some job, set_queue q rest st).
Proof.
  intros Hq Hhead Hbefore. unfold search_for_jobs_unlocked.
  simpl in Hq.
  repeat (destruct Hq as [<- | Hq];
          [ repeat (rewrite pop_head_empty by (apply Hbefore; simpl; lia));
            now rewrite (pop_head_cons _ _ _ _ Hhead)
          | ]).
  contradiction.
Qed.

Lemma search_none st :
  (forall q, In q scan_order -> queue q st = []) ->
  search_for_jobs_unlocked st = (None, st).
Proof.
  intros H. unfold search_for_jobs_unlocked.
  repeat (rewrite pop_head_empty by (apply H; simpl; tauto)).
  reflexivity.
Qed.

(** What the search does, in every state. *)
Lemma search_cases st :
  (exists q job rest,
      In q scan_order /\ queue q st = job :: rest /\
      (forall q', rank q' < rank q -> queue q' st = []) /\
      first_non_empty st = Some q /\
      search_for_jobs_unlocked st = (Some job, set_queue q rest st))
  \/ ((forall q, In q scan_order -> queue q st = []) /\
      first_non_empty st = None /\
      no_jobs_available_unlocked st = true /\
      search_for_jobs_unlocked st = (None, st)).
Proof.
  assert (Hlt : forall q (P : GQueue -> Prop),
             In q scan_order ->
             (forall q', In q' scan_order -> rank q' < rank q -> P q') ->
             (forall q', rank q' < rank q -> P q')).
  { intros q P Hq H q' Hr. apply H; [| exact Hr].
    destruct q'; simpl; try tauto; destruct q; simpl in Hr, Hq; try lia;
      repeat (destruct Hq as [Hq | Hq]; [discriminate Hq |]); contradiction. }
  destruct (queue render_queue_high st) as [|j r] eqn:E0;
    [destruct (queue thumbnail_queue_high st) as [|j r] eqn:E1;
     [destruct (queue render_queue_low st) as [|j r] eqn:E2;
      [destruct (queue links_queue st) as [|j r] eqn:E3;
       [destruct (queue load_queue st) as [|j r] eqn:E4;
        [destruct (queue thumbnail_queue_low st) as [|j r] eqn:E5;
         [destruct (queue fonts_queue st) as [|j r] eqn:E6;
          [destruct (queue print_queue st) as [|j r] eqn:E7 |] |] |] |] |] |] |].
  1: { right.
       assert (He : forall q, In q scan_order -> queue q st = []).
       { simpl. intros q Hq.
         repeat (destruct Hq as [<- | Hq]; [assumption |]). contradiction. }
       repeat split; [exact He | | | apply search_none, He].
       - unfold first_non_empty, scan_order, g_queue_is_empty. cbn [find].
         now rewrite E0, E1, E2, E3, E4, E5, E6, E7.
       - unfold no_jobs_available_unlocked, g_queue_is_empty.
         now rewrite E0, E1, E2, E3, E4, E5, E6, E7. }
  all: left.
  all: match goal with
       | E : queue ?q ?s = ?j :: ?r |- _ =>
           assert (Hb : forall q', rank q' < rank q -> queue q' s = []);
           [ apply Hlt; [simpl; tauto |]; simpl; intros q' Hq' Hr;
             repeat (destruct Hq' as [<- | Hq']; [first [assumption | simpl in Hr; lia] |]);
             contradiction
           | exists q, j, r; repeat split;
             [ simpl; tauto | exact E | exact Hb
             | unfold first_non_empty, scan_order, g_queue_is_empty; cbn [find];
               repeat match goal with
                      | E' : queue _ _ = _ |- _ => rewrite E'; clear E'
                      end; reflexivity
             | apply search_pops; [simpl; tauto | exact E | exact Hb] ] ]
       end.
Qed.

End Search.

(** C1.  In every state the search of the worker returns the head of the
    first non-empty queue in the order render high, thumbnail high, render
    low, links, load, thumbnail low, fonts, print, and removes it from that
    queue; every queue ranked before it is empty.  It returns no job
    exactly when the eight queues are empty, and the state is then left as
    it was. *)
Theorem C1_search_static_order : forall st,
  scan_order = [render_queue_high; thumbnail_queue_high; render_queue_low;
                links_queue; load_queue; thumbnail_queue_low; fonts_queue;
                print_queue] /\
  ((exists q job rest,
       nth_error scan_order (rank q) = Some q /\
       queue q st = job :: rest /\
       (forall q', rank q' < rank q -> queue q' st = []) /\
       search_for_jobs_unlocked st = (Some job, set_queue q rest st))
   \/ ((forall q, In q scan_order -> queue q st = []) /\
       search_for_jobs_unlocked st = (None, st))) /\
  (fst (search_for_jobs_unlocked st) = None <->
   forall q, In q scan_order -> queue q st = []).
Proof.
  intros st. split; [reflexivity |].
  destruct (search_cases st)
    as [(q & job & rest & Hq & Hhead & Hb & _ & Hs) | (He & _ & _ & Hs)].
  - split.
    + left. exists q, job, rest. rewrite <- rank_scan_order. auto.
    + rewrite Hs. simpl. split; [discriminate |].
      intros He. rewrite (He q Hq) in Hhead. discriminate.
  - split.
    + right. auto.
    + rewrite Hs. simpl. tauto.
Qed.

(** ** Removing a job from a queue *)

Section Removal.

Lemma find_none_iff l job : GLib.g_queue_find l job = None <-> ~ In job l.
Proof.
  induction l as [|x l IH]; simpl.
  - tauto.
  - destruct (EvJob_eq_dec x job) as [-> | Hne].
    + split; [discriminate | tauto].
    + destruct (GLib.g_queue_find l job); split; intros H.
      * discriminate.
      * exfalso. apply H. right.
        destruct (in_dec EvJob_eq_dec job l) as [Hin | Hnot]; [exact Hin |].
        apply IH in Hnot. discriminate.
      * intros [Heq | Hin]; [contradiction | now apply IH in Hin].
      * reflexivity.
Qed.

(** The link found is the first occurrence, and deleting it leaves the
    rest of the queue in place. *)
Lemma find_some_split l job i :
  GLib.g_queue_find l job = Some i ->
  exists l1 l2, l = l1 ++ job :: l2 /\ ~ In job l1 /\
                GLib.g_queue_delete_link l i = l1 ++ l2.
Proof.
  revert i. induction l as [|x l IH]; simpl; intros i H.
  - discriminate.
  - destruct (EvJob_eq_dec x job) as [-> | Hne].
    + injection H as <-. exists [], l. simpl. tauto.
    + destruct (GLib.g_queue_find l job) as [k|] eqn:E; [| discriminate].
      injection H as <-.
      destruct (IH k eq_refl) as (l1 & l2 & -> & Hnot & Hdel).
      exists (x :: l1), l2. simpl. rewrite Hdel.
      repeat split. intros [Heq | Hin]; contradiction.
Qed.

Lemma remove_absent q job st :
  ~ In job (queue q st) -> remove_job_from_queue_locked q job st = (false, st).
Proof.
  intros H. unfold remove_job_from_queue_locked.
  apply find_none_iff in H. now rewrite H.
Qed.

Lemma remove_present q job st :
  In job (queue q st) ->
  exists l1 l2, queue q st = l1 ++ job :: l2 /\ ~ In job l1 /\
                remove_job_from_queue_locked q job st = (true, set_queue q (l1 ++ l2) st).
Proof.
  intros H. unfold remove_job_from_queue_locked.
  destruct (GLib.g_queue_find (queue q st) job) as [i|] eqn:E.
  - destruct (find_some_split _ _ _ E) as (l1 & l2 & Hq & Hnot & Hdel).
    exists l1, l2. now rewrite Hdel.
  - apply find_none_iff in E. contradiction.
Qed.

Lemma move_absent job old_queue new_queue st :
  ~ In job (queue old_queue st) ->
  move_job job old_queue new_queue st = (false, st) /\
  move_job_async job old_queue new_queue st = (false, st).
Proof.
  intros H. unfold move_job, move_job_async. now rewrite (remove_absent _ _ _ H).
Qed.

(** One occurrence less in the queue, the other queues untouched. *)
Lemma occurrences_set_queue q job l1 l2 st :
  queue q st = l1 ++ job :: l2 ->
  occurrences job st = S (occurrences job (set_queue q (l1 ++ l2) st)).
Proof.
  destruct st as [[li rh rl th tl lo fo pr ah al] b c f].
  unfold occurrences, all_queues, queue, set_queue.
  destruct q; simpl; intros ->; rewrite !count_occ_app; simpl;
    destruct (EvJob_eq_dec job job); try contradiction; lia.
Qed.

(** The two outcomes of [ev_job_queue_remove_job] on a well-formed job:
    the first occurrence in the first candidate queue that holds the job
    is deleted, or no candidate holds it and nothing changes. *)
Lemma remove_job_cases job st :
  well_formed job ->
  (exists before q after l1 l2,
      candidates job = before ++ q :: after /\
      (forall q', In q' before -> ~ In job (queue q' st)) /\
      queue q st = l1 ++ job :: l2 /\ ~ In job l1 /\
      ev_job_queue_remove_job job st = Ok (true, set_queue q (l1 ++ l2) st))
  \/ ((forall q, In q (candidates job) -> ~ In job (queue q st)) /\
      ev_job_queue_remove_job job st = Ok (false, st)).
Proof.
  intros Hwf.
  assert (Two : forall high low k,
             (forall s, k s = remove_job_from_queue_locked low job s) ->
             (exists before q after l1 l2,
                 [high; low] = before ++ q :: after /\
                 (forall q', In q' before -> ~ In job (queue q' st)) /\
                 queue q st = l1 ++ job :: l2 /\ ~ In job l1 /\
                 or_else (remove_job_from_queue_locked high job st) k
                 = (true, set_queue q (l1 ++ l2) st))
             \/ ((forall q, In q [high; low] -> ~ In job (queue q st)) /\
                 or_else (remove_job_from_queue_locked high job st) k = (false, st))).
  { intros high low k Hk.
    destruct (in_dec EvJob_eq_dec job (queue high st)) as [Hh | Hh].
    - left. destruct (remove_present _ _ _ Hh) as (l1 & l2 & Hq & Hnot & Hr).
      exists [], high, [low], l1, l2. rewrite Hr. simpl. tauto.
    - rewrite (remove_absent _ _ _ Hh). simpl. rewrite Hk.
      destruct (in_dec EvJob_eq_dec job (queue low st)) as [Hl | Hl].
      + left. destruct (remove_present _ _ _ Hl) as (l1 & l2 & Hq & Hnot & Hr).
        exists [high], low, [], l1, l2. rewrite Hr. simpl.
        repeat split; try assumption. intros q' [<- | []]. exact Hh.
      + right. rewrite (remove_absent _ _ _ Hl). split; [| reflexivity].
        intros q [<- | [<- | []]]; assumption. }
  assert (One : forall q,
             (exists before q0 after l1 l2,
                 [q] = before ++ q0 :: after /\
                 (forall q', In q' before -> ~ In job (queue q' st)) /\
                 queue q0 st = l1 ++ job :: l2 /\ ~ In job l1 /\
                 remove_job_from_queue_locked q job st
                 = (true, set_queue q0 (l1 ++ l2) st))
             \/ ((forall q0, In q0 [q] -> ~ In job (queue q0 st)) /\
                 remove_job_from_queue_locked q job st = (false, st))).
  { intros q.
    destruct (in_dec EvJob_eq_dec job (queue q st)) as [Hin | Hin].
    - left. destruct (remove_present _ _ _ Hin) as (l1 & l2 & Hq & Hnot & Hr).
      exists [], q, [], l1, l2. rewrite Hr. simpl. tauto.
    - right. rewrite (remove_absent _ _ _ Hin). split; [| reflexivity].
      intros q0 [<- | []]. exact Hin. }
  unfold well_formed in Hwf.
  unfold ev_job_queue_remove_job, candidates, remove_job_from_async_queue,
    EV_IS_JOB_RENDER, EV_IS_JOB_THUMBNAIL, EV_IS_JOB_LINKS, EV_IS_JOB_LOAD,
    EV_IS_JOB_FONTS, EV_IS_JOB_PRINT.
  destruct (async job) eqn:Ea.
  - rewrite (Hwf eq_refl). cbv beta iota.
    destruct (Two async_render_queue_high async_render_queue_low
                (remove_job_from_queue_locked async_render_queue_low job)
                (fun _ => eq_refl))
      as [(b & q & a & l1 & l2 & H1 & H2 & H3 & H4 & H5) | (H1 & H2)].
    + left. exists b, q, a, l1, l2. repeat (split; [assumption |]). f_equal. exact H5.
    + right. split; [assumption |]. f_equal. exact H2.
  - destruct (job_kind job); cbv beta iota.
    + destruct (Two render_queue_high render_queue_low
                  (remove_job_from_queue_locked render_queue_low job)
                  (fun _ => eq_refl))
        as [(b & q & a & l1 & l2 & H1 & H2 & H3 & H4 & H5) | (H1 & H2)].
      * left. exists b, q, a, l1, l2. repeat (split; [assumption |]). f_equal. exact H5.
      * right. split; [assumption |]. f_equal. exact H2.
    + destruct (Two thumbnail_queue_high thumbnail_queue_low
                  (remove_job_from_queue_locked thumbnail_queue_low job)
                  (fun _ => eq_refl))
        as [(b & q & a & l1 & l2 & H1 & H2 & H3 & H4 & H5) | (H1 & H2)].
      * left. exists b, q, a, l1, l2. repeat (split; [assumption |]). f_equal. exact H5.
      * right. split; [assumption |]. f_equal. exact H2.
    + destruct (One load_queue)
        as [(b & q & a & l1 & l2 & H1 & H2 & H3 & H4 & H5) | (H1 & H2)].
      * left. exists b, q, a, l1, l2. repeat (split; [assumption |]). f_equal. exact H5.
      * right. split; [assumption |]. f_equal. exact H2.
    + destruct (One links_queue)
        as [(b & q & a & l1 & l2 & H1 & H2 & H3 & H4 & H5) | (H1 & H2)].
      * left. exists b, q, a, l1, l2. repeat (split; [assumption |]). f_equal. exact H5.
      * right. split; [assumption |]. f_equal. exact H2.
    + destruct (One fonts_queue)
        as [(b & q & a & l1 & l2 & H1 & H2 & H3 & H4 & H5) | (H1 & H2)].
      * left. exists b, q, a, l1, l2. repeat (split; [assumption |]). f_equal. exact H5.
      * right. split; [assumption |]. f_equal. exact H2.
    + destruct (One print_queue)
        as [(b & q & a & l1 & l2 & H1 & H2 & H3 & H4 & H5) | (H1 & H2)].
      * left. exists b, q, a, l1, l2. repeat (split; [assumption |]). f_equal. exact H5.
      * right. split; [assumption |]. f_equal. exact H2.
Qed.

End Removal.

(** ** Priority changes *)

Section Update.

(** A job with a priority is moved from the queue of the other priority
    to the queue of the new one. *)
Lemma update_job_moves job p st :
  has_priority job ->
  exists old_queue new_queue,
    find_queue job (opposite p) = Ok old_queue /\
    find_queue job p = Ok new_queue /\
    ev_job_queue_update_job job p st
    = Ok (if async job then move_job_async job old_queue new_queue st
          else move_job job old_queue new_queue st).
Proof.
  unfold has_priority, ev_job_queue_update_job, find_queue,
    EV_IS_JOB_RENDER, EV_IS_JOB_THUMBNAIL.
  intros [Hk | [Hk Ha]]; rewrite Hk; [destruct (async job) | rewrite Ha];
    destruct p; simpl; eexists; eexists; repeat split.
Qed.

Lemma update_job_asserts job p st :
  ~ has_priority job -> ev_job_queue_update_job job p st = AssertNotReached.
Proof.
  unfold has_priority, ev_job_queue_update_job, EV_IS_JOB_RENDER, EV_IS_JOB_THUMBNAIL.
  intros H. destruct (job_kind job), (async job); try reflexivity;
    exfalso; apply H; auto.
Qed.

Lemma update_job_absent job p st old_queue :
  has_priority job ->
  find_queue job (opposite p) = Ok old_queue ->
  ~ In job (queue old_queue st) ->
  ev_job_queue_update_job job p st = Ok (false, st).
Proof.
  intros Hp Hold Hnot.
  destruct (update_job_moves job p st Hp) as (o & n & Ho & Hn & ->).
  rewrite Hold in Ho. injection Ho as <-.
  destruct (move_absent job old_queue n st Hnot) as [-> ->].
  now destruct (async job).
Qed.

End Update.

(** C6.  On a job that is in no queue, for instance one the worker has
    already popped, [ev_job_queue_remove_job] returns false and leaves the
    state as it was.  It returns true exactly when the job is in one of
    the queues of its kind and mode.  In that case the queue it was found
    in holds, after the call, what it held before without the first
    occurrence of the job; every other queue, the flag, the calls made and
    the jobs in flight are as before; and the job occurs once less over
    the ten queues.  Jobs are those of the data model: a non-blocking job
    is a render job. *)
Theorem C6_remove_reports_presence : forall job st,
  well_formed job ->
  exists found st',
    ev_job_queue_remove_job job st = Ok (found, st') /\
    (in_no_queue job st -> found = false /\ st' = st) /\
    (found = true <-> exists q, In q (candidates job) /\ In job (queue q st)) /\
    (found = false -> st' = st) /\
    (found = true ->
     exists q l1 l2,
       In q (candidates job) /\
       queue q st = l1 ++ job :: l2 /\ ~ In job l1 /\
       queue q st' = l1 ++ l2 /\
       (forall q', q' <> q -> queue q' st' = queue q' st) /\
       async_rendering st' = async_rendering st /\
       calls st' = calls st /\ in_flight st' = in_flight st /\
       occurrences job st = S (occurrences job st')).
Proof.
  intros job st Hwf.
  destruct (remove_job_cases job st Hwf)
    as [(before & q & after & l1 & l2 & Hc & Hb & Hq & Hnot & Hr) | (Hnone & Hr)].
  - assert (Hin : In q (candidates job)) by (rewrite Hc; apply in_elt).
    assert (Hjob : In job (queue q st)) by (rewrite Hq; apply in_elt).
    exists true, (set_queue q (l1 ++ l2) st). split; [exact Hr |].
    split; [intros H; exfalso; exact (H q Hjob) |].
    split; [split; [intros _; now exists q | reflexivity] |].
    split; [discriminate |].
    intros _. exists q, l1, l2.
    split; [exact Hin |]. split; [exact Hq |]. split; [exact Hnot |].
    split; [apply queue_set_queue_same |].
    split; [intros q' Hne; apply queue_set_queue_other; congruence |].
    split; [reflexivity |]. split; [reflexivity |]. split; [reflexivity |].
    exact (occurrences_set_queue q job l1 l2 st Hq).
  - exists false, st. split; [exact Hr |].
    split; [intros _; split; reflexivity |].
    split; [split; [discriminate |] |].
    + intros (q & Hin & Hjob). exfalso. exact (Hnone q Hin Hjob).
    + split; [reflexivity | discriminate].
Qed.

Lemma C6_remove_reports_presence_witness :
  let A := mkJob 7 Render false in
  let B := mkJob 8 Render false in
  let C := mkJob 9 Render false in
  let st := set_queue thumbnail_queue_low [A]
              (set_queue render_queue_low [B; A; C; A] ev_job_queue_init) in
  well_formed A /\
  (exists found st',
      ev_job_queue_remove_job A st = Ok (found, st') /\
      found = true /\
      queue render_queue_low st' = [B; C; A] /\
      queue thumbnail_queue_low st' = [A]) /\
  (exists found st',
      ev_job_queue_remove_job A ev_job_queue_init = Ok (found, st') /\
      found = false /\ st' = ev_job_queue_init).
Proof.
  intros A B C st.
  assert (Hwf : well_formed A) by (intros H; discriminate H).
  split; [exact Hwf |]. split.
  - destruct (C6_remove_reports_presence A st Hwf)
      as (found & st' & Hr & _ & Hiff & _ & Hdel).
    assert (Ht : found = true).
    { apply Hiff. exists render_queue_low. simpl. tauto. }
    exists found, st'. split; [exact Hr |]. split; [exact Ht |].
    destruct (Hdel Ht) as (q & l1 & l2 & Hq & Hsplit & Hnot & Hafter & Hrest & _).
    simpl in Hq. destruct Hq as [<- | [<- | []]].
    + destruct l1; discriminate Hsplit.
    + assert (Hl : l1 = [B] /\ l2 = [C; A]).
      { destruct l1 as [|x [|y l1]]; simpl in Hsplit.
        - discriminate Hsplit.
        - injection Hsplit as <- <-. split; reflexivity.
        - exfalso. injection Hsplit as _ <- _. apply Hnot. simpl. auto. }
      destruct Hl as [-> ->]. split; [exact Hafter |].
      rewrite Hrest by discriminate. reflexivity.
  - destruct (C6_remove_reports_presence A ev_job_queue_init Hwf)
      as (found & st' & Hr & Hno & _).
    exists found, st'. split; [exact Hr |].
    apply Hno. intros q. destruct q; simpl; tauto.
Defined.

(** C10.  One call of [ev_job_queue_remove_job] deletes at most one
    occurrence of the job.  In a queue the first occurrence is the one
    deleted.  For a kind with a high and a low queue the high one is
    looked into first, and when the job is found there the low queue is
    left alone, also when it holds the job too.  Whenever some candidate
    queue holds the job the call returns true and the number of
    occurrences goes down by exactly one. *)
Theorem C10_remove_at_most_one : forall job st,
  well_formed job ->
  exists found st',
    ev_job_queue_remove_job job st = Ok (found, st') /\
    occurrences job st = occurrences job st' + (if found then 1 else 0) /\
    ((exists q, In q (candidates job) /\ In job (queue q st)) -> found = true) /\
    (forall high low,
        candidates job = [high; low] ->
        (In job (queue high st) ->
         exists l1 l2, queue high st = l1 ++ job :: l2 /\ ~ In job l1 /\
                       found = true /\ st' = set_queue high (l1 ++ l2) st) /\
        (~ In job (queue high st) -> In job (queue low st) ->
         exists l1 l2, queue low st = l1 ++ job :: l2 /\ ~ In job l1 /\
                       found = true /\ st' = set_queue low (l1 ++ l2) st)) /\
    (forall q,
        candidates job = [q] -> In job (queue q st) ->
        exists l1 l2, queue q st = l1 ++ job :: l2 /\ ~ In job l1 /\
                      found = true /\ st' = set_queue q (l1 ++ l2) st).
Proof.
  intros job st Hwf.
  destruct (remove_job_cases job st Hwf)
    as [(before & q & after & l1 & l2 & Hc & Hb & Hq & Hnot & Hr) | (Hnone & Hr)].
  - exists true, (set_queue q (l1 ++ l2) st). split; [exact Hr |].
    split; [rewrite (occurrences_set_queue q job l1 l2 st Hq); lia |].
    split; [reflexivity |].
    split.
    + intros high low Hhl. rewrite Hhl in Hc. split.
      * intros Hin. destruct before as [|b0 before]; simpl in Hc.
        -- injection Hc as <- _. now exists l1, l2.
        -- injection Hc as <- _. exfalso. apply (Hb high); simpl; auto.
      * intros Hh Hl. destruct before as [|b0 [|b1 before]]; simpl in Hc.
        -- injection Hc as <- _. exfalso. apply Hh. rewrite Hq. apply in_elt.
        -- injection Hc as _ <- _. now exists l1, l2.
        -- injection Hc as _ _ Hc. now destruct before.
    + intros q0 Hq0 Hin. rewrite Hq0 in Hc.
      destruct before as [|b0 before]; simpl in Hc.
      * injection Hc as <- _. now exists l1, l2.
      * injection Hc as _ Hc. now destruct before.
  - exists false, st. split; [exact Hr |].
    split; [lia |].
    split; [intros (q & Hin & Hjob); exfalso; exact (Hnone q Hin Hjob) |].
    split.
    + intros high low Hhl. rewrite Hhl in Hnone. split.
      * intros Hin. exfalso. apply (Hnone high); simpl; auto.
      * intros _ Hin. exfalso. apply (Hnone low); simpl; auto.
    + intros q Hq Hin. rewrite Hq in Hnone. exfalso. apply (Hnone q); simpl; auto.
Qed.

Lemma C10_remove_at_most_one_witness :
  let job := mkJob 3 Render false in
  let st := set_queue render_queue_low [job]
              (set_queue render_queue_high [mkJob 4 Render false; job; job]
                 ev_job_queue_init) in
  well_formed job /\
  exists found st',
    ev_job_queue_remove_job job st = Ok (found, st') /\
    found = true /\ occurrences job st = 3 /\ occurrences job st' = 2.
Proof.
  intros job st.
  assert (Hwf : well_formed job) by (intros H; discriminate H).
  split; [exact Hwf |].
  destruct (C10_remove_at_most_one job st Hwf) as (found & st' & Hr & Hocc & Hfound & _).
  assert (Ht : found = true).
  { apply Hfound. exists render_queue_high. simpl. tauto. }
  exists found, st'. rewrite Ht in Hocc.
  assert (H3 : occurrences job st = 3) by reflexivity.
  split; [exact Hr |]. split; [exact Ht |]. split; [exact H3 | lia].
Defined.

(** C4, as stated, fails: a blocking load job that sits in its queue makes
    [ev_job_queue_update_job] stop at [g_assert_not_reached] (line 454);
    the call does not return false. *)
Lemma C4_counterexample :
  let job := mkJob 1 Load false in
  let st := set_queue load_queue [job] ev_job_queue_init in
  ev_job_queue_add_job job EV_JOB_PRIORITY_LOW ev_job_queue_init = Ok st /\
  ev_job_queue_update_job job EV_JOB_PRIORITY_HIGH st = AssertNotReached /\
  ev_job_queue_update_job job EV_JOB_PRIORITY_HIGH st <> Ok (false, st).
Proof.
  cbv zeta. repeat split. discriminate.
Qed.

(** C4, amended.  For a job of a kind with two priorities (a render job,
    or a blocking thumbnail job) that sits in the queue of priority [p]
    and not in the queue of the other priority, a request for [p] returns
    false and changes nothing.  For every other job (load, links, fonts,
    print, or an async job that is not a render job) the call stops at
    [g_assert_not_reached]. *)
Theorem C4_update_same_priority : forall job p st,
  (has_priority job ->
   forall q q',
     find_queue job p = Ok q -> find_queue job (opposite p) = Ok q' ->
     In job (queue q st) -> ~ In job (queue q' st) ->
     ev_job_queue_update_job job p st = Ok (false, st)) /\
  (~ has_priority job ->
   ev_job_queue_update_job job p st = AssertNotReached).
Proof.
  intros job p st. split.
  - intros Hp q q' _ Hq' _ Hnot. exact (update_job_absent job p st q' Hp Hq' Hnot).
  - apply update_job_asserts.
Qed.

Lemma C4_update_same_priority_witness :
  let job := mkJob 2 Thumbnail false in
  let st := set_queue thumbnail_queue_high [job] ev_job_queue_init in
  ev_job_queue_update_job job EV_JOB_PRIORITY_HIGH st = Ok (false, st) /\
  ev_job_queue_update_job (mkJob 5 Fonts false) EV_JOB_PRIORITY_LOW st = AssertNotReached.
Proof.
  intros job st. split.
  - apply (proj1 (C4_update_same_priority job EV_JOB_PRIORITY_HIGH st))
      with (q := thumbnail_queue_high) (q' := thumbnail_queue_low).
    + right. split; reflexivity.
    + reflexivity.
    + reflexivity.
    + simpl. tauto.
    + simpl. tauto.
  - apply (proj2 (C4_update_same_priority (mkJob 5 Fonts false) EV_JOB_PRIORITY_LOW st)).
    intros [H | [H _]]; discriminate H.
Defined.

(** C9, as stated, fails for the kinds without a priority: a blocking
    load job is added, the worker pops it, and the priority change then
    stops at [g_assert_not_reached] instead of reporting a failure. *)
Lemma C9_counterexample :
  let job := mkJob 1 Load false in
  let st := set_queue load_queue [job] ev_job_queue_init in
  ev_job_queue_add_job job EV_JOB_PRIORITY_LOW ev_job_queue_init = Ok st /\
  search_for_jobs_unlocked st = (Some job, ev_job_queue_init) /\
  in_no_queue job ev_job_queue_init /\
  ev_job_queue_update_job job EV_JOB_PRIORITY_HIGH ev_job_queue_init = AssertNotReached /\
  ev_job_queue_update_job job EV_JOB_PRIORITY_HIGH ev_job_queue_init
  <> Ok (false, ev_job_queue_init).
Proof.
  cbv zeta. repeat split; try discriminate.
  intros q. destruct q; simpl; tauto.
Qed.

(** C9, amended.  For a job that is in no queue any more: the remove step
    of a move fails and nothing is appended, whatever the two queues.  If
    its kind has two priorities (a render job, or a blocking thumbnail
    job), [ev_job_queue_update_job] returns false and leaves every queue as
    it was, so the job is not queued again.  For the other kinds the call
    stops at [g_assert_not_reached]. *)
Theorem C9_update_popped_job : forall job p st,
  in_no_queue job st ->
  (forall old_queue new_queue,
      remove_job_from_queue_locked old_queue job st = (false, st) /\
      move_job job old_queue new_queue st = (false, st) /\
      move_job_async job old_queue new_queue st = (false, st)) /\
  (has_priority job ->
   ev_job_queue_update_job job p st = Ok (false, st)) /\
  (~ has_priority job ->
   ev_job_queue_update_job job p st = AssertNotReached).
Proof.
  intros job p st Hno. repeat split.
  - apply remove_absent, Hno.
  - apply move_absent, Hno.
  - apply move_absent, Hno.
  - intros Hp. destruct (update_job_moves job p st Hp) as (o & n & Ho & _ & _).
    exact (update_job_absent job p st o Hp Ho (Hno o)).
  - apply update_job_asserts.
Qed.

Lemma C9_update_popped_job_witness :
  let job := mkJob 6 Render true in
  in_no_queue job ev_job_queue_init /\
  ev_job_queue_update_job job EV_JOB_PRIORITY_HIGH ev_job_queue_init
  = Ok (false, ev_job_queue_init).
Proof.
  intros job.
  assert (Hno : in_no_queue job ev_job_queue_init)
    by (intros q; destruct q; simpl; tauto).
  split; [exact Hno |].
  apply (proj1 (proj2 (C9_update_popped_job job EV_JOB_PRIORITY_HIGH _ Hno))).
  left. reflexivity.
Defined.

(** ** Handling a job *)

Section Handling.

Lemma handle_job_async job st :
  async job = true -> job_kind job = Render ->
  handle_job job st
  = Ok (mkState (queues st) true
          (calls st ++ [g_signal_connect_finished job; ev_job_render_run job])
          (in_flight st ++ [job])).
Proof.
  intros Ha Hk.
  unfold handle_job, run_call, EV_IS_JOB_RENDER, EV_IS_JOB_THUMBNAIL,
    EV_IS_JOB_LINKS, EV_IS_JOB_LOAD.
  rewrite Ha, Hk. simpl. unfold set_in_flight, call. simpl.
  now rewrite <- app_assoc.
Qed.

Lemma handle_job_sync job st :
  async job = false ->
  handle_job job st
  = Ok (mkState (queues st) (async_rendering st)
          (calls st ++ run_call job ++ [g_idle_add_notify_finished job])
          (in_flight st)).
Proof.
  intros Ha.
  unfold handle_job, run_call, EV_IS_JOB_RENDER, EV_IS_JOB_THUMBNAIL,
    EV_IS_JOB_LINKS, EV_IS_JOB_LOAD, EV_IS_JOB_FONTS, EV_IS_JOB_PRINT.
  rewrite Ha.
  destruct (job_kind job); simpl; unfold call; simpl;
    now rewrite <- app_assoc.
Qed.

Lemma handle_job_asserts job st :
  async job = true -> job_kind job <> Render ->
  handle_job job st = AssertNotReached.
Proof.
  intros Ha Hk. unfold handle_job, EV_IS_JOB_RENDER. rewrite Ha.
  destruct (job_kind job); try reflexivity. contradiction Hk. reflexivity.
Qed.

Lemma handle_job_returns job st :
  well_formed job -> exists st', handle_job job st = Ok st'.
Proof.
  intros Hwf. destruct (async job) eqn:Ha.
  - rewrite (handle_job_async job st Ha (Hwf Ha)). eauto.
  - rewrite (handle_job_sync job st Ha). eauto.
Qed.

Lemma run_next_high st job rest :
  queue async_render_queue_high st = job :: rest ->
  ev_job_queue_run_next st = handle_job job (set_queue async_render_queue_high rest st).
Proof.
  intros H. unfold ev_job_queue_run_next. now rewrite (pop_head_cons _ _ _ _ H).
Qed.

Lemma run_next_low st job rest :
  queue async_render_queue_high st = [] ->
  queue async_render_queue_low st = job :: rest ->
  ev_job_queue_run_next st = handle_job job (set_queue async_render_queue_low rest st).
Proof.
  intros Hh Hl. unfold ev_job_queue_run_next.
  now rewrite (pop_head_empty _ _ Hh), (pop_head_cons _ _ _ _ Hl).
Qed.

Lemma run_next_idle st :
  queue async_render_queue_high st = [] ->
  queue async_render_queue_low st = [] ->
  ev_job_queue_run_next st = Ok st.
Proof.
  intros Hh Hl. unfold ev_job_queue_run_next.
  now rewrite (pop_head_empty _ _ Hh), (pop_head_empty _ _ Hl).
Qed.

Lemma run_next_returns st :
  async_queues_well_formed st -> exists st', ev_job_queue_run_next st = Ok st'.
Proof.
  intros Hwf.
  destruct (queue async_render_queue_high st) as [|j r] eqn:Hh.
  - destruct (queue async_render_queue_low st) as [|j r] eqn:Hl.
    + rewrite (run_next_idle st Hh Hl). eauto.
    + rewrite (run_next_low st j r Hh Hl). apply handle_job_returns, Hwf.
      rewrite Hh, Hl. simpl. auto.
    - rewrite (run_next_high st j r Hh). apply handle_job_returns, Hwf.
      rewrite Hh. simpl. auto.
Qed.

(** A submission while a rendering is going on only appends the job. *)
Lemma add_job_busy job p q st :
  async job = true -> find_queue job p = Ok q ->
  async_rendering st = true ->
  ev_job_queue_add_job job p st = Ok (add_job_to_async_queue q job st).
Proof.
  intros Ha Hq Hbusy. unfold ev_job_queue_add_job.
  rewrite Hq, Ha. simpl. now rewrite Hbusy.
Qed.

Lemma add_job_idle job p q st :
  async job = true -> find_queue job p = Ok q ->
  async_rendering st = false ->
  ev_job_queue_add_job job p st
  = ev_job_queue_run_next (add_job_to_async_queue q job st).
Proof.
  intros Ha Hq Hidle. unfold ev_job_queue_add_job.
  rewrite Hq, Ha. simpl. now rewrite Hidle.
Qed.

Lemma add_job_sync job p st :
  async job = false ->
  exists q, find_queue job p = Ok q /\ sync_queue q /\
            ev_job_queue_add_job job p st = Ok (add_job_to_queue_locked q job st).
Proof.
  intros Ha. unfold ev_job_queue_add_job, find_queue, EV_IS_JOB_RENDER,
    EV_IS_JOB_THUMBNAIL, EV_IS_JOB_LINKS, EV_IS_JOB_LOAD, EV_IS_JOB_FONTS,
    EV_IS_JOB_PRINT, sync_queue.
  rewrite Ha. destruct (job_kind job), p; simpl;
    eexists; repeat split; discriminate.
Qed.

Lemma find_queue_async job p :
  async job = true -> job_kind job = Render ->
  find_queue job p
  = Ok (match p with
        | EV_JOB_PRIORITY_HIGH => async_render_queue_high
        | EV_JOB_PRIORITY_LOW => async_render_queue_low
        end).
Proof.
  intros Ha Hk. unfold find_queue, EV_IS_JOB_RENDER. rewrite Ha, Hk.
  now destruct p.
Qed.

End Handling.




(** ** The kind restriction of the async side *)

Section AsyncKinds.

Lemma in_push_tail q q' job j st :
  In j (queue q' (g_queue_push_tail q job st)) ->
  j = job \/ In j (queue q' st).
Proof.
  unfold g_queue_push_tail.
  destruct (GQueue_eq_dec q q') as [<- | Hne].
  - rewrite queue_set_queue_same. unfold GLib.g_queue_push_tail.
    rewrite in_app_iff. simpl. intuition.
  - rewrite (queue_set_queue_other _ _ _ _ Hne). auto.
Qed.

Lemma push_tail_well_formed q job st :
  well_formed job -> async_queues_well_formed st ->
  async_queues_well_formed (g_queue_push_tail q job st).
Proof.
  intros Hj Hst j Hin. apply in_app_iff in Hin.
  destruct Hin as [Hin | Hin]; apply in_push_tail in Hin;
    destruct Hin as [-> | Hin]; try exact Hj;
    apply Hst, in_app_iff; auto.
Qed.

Lemma add_job_async_returns job p st :
  async job = true -> job_kind job = Render ->
  async_queues_well_formed st ->
  exists st', ev_job_queue_add_job job p st = Ok st'.
Proof.
  intros Ha Hk Hst.
  pose proof (find_queue_async job p Ha Hk) as Hq.
  destruct (async_rendering st) eqn:Hbusy.
  - rewrite (add_job_busy job p _ st Ha Hq Hbusy). eauto.
  - rewrite (add_job_idle job p _ st Ha Hq Hbusy).
    apply run_next_returns, push_tail_well_formed; [| exact Hst].
    intros _. exact Hk.
Qed.

End AsyncKinds.

(** C8.  For an async job that is not a render job, [find_queue] stops at
    [g_assert_not_reached], and so do [ev_job_queue_add_job],
    [ev_job_queue_update_job], [ev_job_queue_remove_job] and [handle_job]:
    none of them returns.  For an async render job the assertions are not
    reached: [find_queue] returns one of the two async queues, and
    [handle_job], [ev_job_queue_update_job] and [ev_job_queue_remove_job]
    return; [ev_job_queue_add_job] returns as well, the jobs it may pop
    from the async queues being jobs that were accepted into them. *)
Theorem C8_async_kind_assertion : forall job p st,
  async job = true ->
  (job_kind job <> Render ->
   find_queue job p = AssertNotReached /\
   ev_job_queue_add_job job p st = AssertNotReached /\
   ev_job_queue_update_job job p st = AssertNotReached /\
   ev_job_queue_remove_job job st = AssertNotReached /\
   handle_job job st = AssertNotReached) /\
  (job_kind job = Render ->
   (find_queue job p = Ok async_render_queue_high \/
    find_queue job p = Ok async_render_queue_low) /\
   (exists st', handle_job job st = Ok st') /\
   (exists r, ev_job_queue_update_job job p st = Ok r) /\
   (exists r, ev_job_queue_remove_job job st = Ok r) /\
   (async_queues_well_formed st ->
    exists st', ev_job_queue_add_job job p st = Ok st')).
Proof.
  intros job p st Ha. split.
  - intros Hk.
    assert (Hr : EV_IS_JOB_RENDER job = false).
    { unfold EV_IS_JOB_RENDER. destruct (job_kind job); try reflexivity.
      contradiction Hk. reflexivity. }
    unfold ev_job_queue_add_job, ev_job_queue_update_job,
      ev_job_queue_remove_job, find_queue.
    rewrite Ha, Hr. repeat split. apply handle_job_asserts; assumption.
  - intros Hk. split; [| split; [| split; [| split]]].
    + rewrite (find_queue_async job p Ha Hk). destruct p; auto.
    + rewrite (handle_job_async job st Ha Hk). eauto.
    + unfold ev_job_queue_update_job, EV_IS_JOB_RENDER. rewrite Ha, Hk.
      destruct p; eauto.
    + unfold ev_job_queue_remove_job, EV_IS_JOB_RENDER. rewrite Ha, Hk. eauto.
    + apply add_job_async_returns; assumption.
Qed.

Lemma C8_async_kind_assertion_witness :
  ev_job_queue_add_job (mkJob 9 Thumbnail true) EV_JOB_PRIORITY_HIGH ev_job_queue_init
  = AssertNotReached /\
  exists st',
    ev_job_queue_add_job (mkJob 8 Render true) EV_JOB_PRIORITY_HIGH ev_job_queue_init
    = Ok st'.
Proof.
  split.
  - apply (proj1 (C8_async_kind_assertion (mkJob 9 Thumbnail true)
                    EV_JOB_PRIORITY_HIGH ev_job_queue_init eq_refl)).
    discriminate.
  - apply (proj2 (C8_async_kind_assertion (mkJob 8 Render true)
                    EV_JOB_PRIORITY_HIGH ev_job_queue_init eq_refl)).
    + reflexivity.
    + intros job Hin. simpl in Hin. contradiction.
Defined.

(** ** The loop of the worker *)

Section Worker.

Lemma is_empty_nil l : GLib.g_queue_is_empty l = true <-> l = [].
Proof. destruct l; simpl; split; congruence. Qed.

Lemma no_jobs_iff st :
  no_jobs_available_unlocked st = true <->
  forall q, In q scan_order -> queue q st = [].
Proof.
  unfold no_jobs_available_unlocked, g_queue_is_empty.
  rewrite !andb_true_iff, !is_empty_nil. split.
  - intros H q Hq. simpl in Hq.
    repeat (destruct Hq as [<- | Hq]; [tauto |]). contradiction.
  - intros H. repeat split; apply H; simpl; tauto.
Qed.

Lemma search_no_jobs st :
  no_jobs_available_unlocked st = true ->
  search_for_jobs_unlocked st = (None, st).
Proof. intros H. apply search_none, no_jobs_iff, H. Qed.

Lemma search_some_jobs st :
  no_jobs_available_unlocked st = false ->
  exists job st', search_for_jobs_unlocked st = (Some job, st').
Proof.
  intros H.
  destruct (search_cases st)
    as [(q & job & rest & _ & _ & _ & _ & Hs) | (_ & _ & Hn & _)].
  - eauto.
  - rewrite Hn in H. discriminate.
Qed.

(** A wake-up that finds the queues empty costs the worker one empty
    pass through the loop, after which it waits again. *)
Lemma empty_pass others st :
  no_jobs_available_unlocked st = true ->
  ev_render_thread [others; others; others] at_search st = Ok (at_cond_wait, st).
Proof.
  intros H. simpl. rewrite (search_no_jobs st H). simpl. now rewrite H.
Qed.

Lemma spurious_wakeups st n :
  no_jobs_available_unlocked st = true ->
  ev_render_thread (repeat (fun s => s) (4 * n)) at_cond_wait st
  = Ok (at_cond_wait, st) /\
  exists loc, ev_render_thread (repeat (fun s => s) n) at_cond_wait st = Ok (loc, st).
Proof.
  intros H.
  assert (Hfour : forall rest,
             ev_render_thread ((fun s => s) :: (fun s => s) :: (fun s => s)
                               :: (fun s => s) :: rest) at_cond_wait st
             = ev_render_thread rest at_cond_wait st).
  { intros rest. simpl. rewrite (search_no_jobs st H). simpl. now rewrite H. }
  assert (Hany : forall m loc,
             (loc = at_cond_wait \/ loc = at_search \/ loc = at_handle None \/ loc = at_lock) ->
             exists loc', ev_render_thread (repeat (fun s => s) m) loc st = Ok (loc', st)).
  { induction m as [|m IH]; intros loc Hloc; simpl.
    - eauto.
    - destruct Hloc as [-> | [-> | [-> | ->]]]; simpl.
      + apply IH. tauto.
      + rewrite (search_no_jobs st H). simpl. apply IH. tauto.
      + apply IH. tauto.
      + rewrite H. simpl. apply IH. tauto. }
  split.
  - induction n as [|n IH].
    + reflexivity.
    + replace (4 * S n) with (S (S (S (S (4 * n))))) by lia.
      cbn [repeat]. now rewrite Hfour.
  - apply Hany. tauto.
Qed.

End Worker.

(** C3, as stated, fails: the wait is guarded by an [if], not by a loop.
    When [g_cond_wait] returns with the eight queues still empty, the
    worker does not test them and wait again: it goes on to
    [search_for_jobs_unlocked], which finds nothing. *)
Lemma C3_counterexample :
  let spurious := fun st : State => st in
  no_jobs_available_unlocked (spurious ev_job_queue_init) = true /\
  ev_render_thread_step spurious at_cond_wait ev_job_queue_init
  = Ok (at_search, ev_job_queue_init) /\
  ev_render_thread_step spurious at_cond_wait ev_job_queue_init
  <> Ok (at_cond_wait, ev_job_queue_init) /\
  ev_render_thread_step spurious at_search ev_job_queue_init
  = Ok (at_handle None, ev_job_queue_init).
Proof.
  cbv zeta. repeat split. discriminate.
Qed.

(** C3, amended.  In an iteration of its loop the worker tests the eight
    queues once, after locking, and waits on the condition only if they
    are all empty.  When the wait returns it searches the queues without
    a second test.  If they are still empty the search finds no job,
    nothing is handled, the state is unchanged, and the worker is back at
    the top of the loop, where the test sends it to the wait again; so any
    number of such wake-ups handles no job.  If a queue is not empty the
    search pops a job for [handle_job]. *)
Theorem C3_worker_wait_once : forall others st,
  ev_render_thread_step others at_lock st
  = Ok (if no_jobs_available_unlocked st then at_cond_wait else at_search, st) /\
  ev_render_thread_step others at_cond_wait st = Ok (at_search, others st) /\
  (no_jobs_available_unlocked st = true ->
   ev_render_thread_step others at_search st = Ok (at_handle None, st) /\
   ev_render_thread [others; others; others] at_search st = Ok (at_cond_wait, st) /\
   forall n,
     ev_render_thread (repeat (fun s => s) (4 * n)) at_cond_wait st
     = Ok (at_cond_wait, st) /\
     exists loc,
       ev_render_thread (repeat (fun s => s) n) at_cond_wait st = Ok (loc, st)) /\
  (no_jobs_available_unlocked st = false ->
   exists job st',
     search_for_jobs_unlocked st = (Some job, st') /\
     ev_render_thread_step others at_search st = Ok (at_handle (Some job), st')).
Proof.
  intros others st. split; [| split; [| split]].
  - simpl. now destruct (no_jobs_available_unlocked st).
  - reflexivity.
  - intros H. split; [| split].
    + simpl. now rewrite (search_no_jobs st H).
    + apply empty_pass, H.
    + intros n. apply spurious_wakeups, H.
  - intros H. destruct (search_some_jobs st H) as (job & st' & Hs).
    exists job, st'. split; [exact Hs |]. simpl. now rewrite Hs.
Qed.

Lemma C3_worker_wait_once_witness :
  let job := mkJob 1 Print false in
  let st := set_queue print_queue [job] ev_job_queue_init in
  ev_render_thread [fun s => s; fun s => s; fun s => s] at_search ev_job_queue_init
  = Ok (at_cond_wait, ev_job_queue_init) /\
  exists job' st',
    search_for_jobs_unlocked st = (Some job', st') /\
    ev_render_thread_step (fun s => s) at_search st = Ok (at_handle (Some job'), st').
Proof.
  intros job st. split.
  - apply (C3_worker_wait_once (fun s => s) ev_job_queue_init). reflexivity.
  - apply (C3_worker_wait_once (fun s => s) st). reflexivity.
Defined.

(** ** The async dispatcher *)

Section Dispatcher.

Lemma count_connect c j x :
  count_occ Call_eq_dec
    (c ++ [g_signal_connect_finished j; ev_job_render_run j])
    (g_signal_connect_finished x)
  = count_occ Call_eq_dec c (g_signal_connect_finished x)
    + (if EvJob_eq_dec j x then 1 else 0).
Proof.
  rewrite count_occ_app. simpl.
  destruct (Call_eq_dec (g_signal_connect_finished j) (g_signal_connect_finished x))
    as [e | n];
    destruct (Call_eq_dec (ev_job_render_run j) (g_signal_connect_finished x));
    try discriminate;
    destruct (EvJob_eq_dec j x) as [-> | Hne]; try reflexivity.
Qed.

(** With nothing in flight, [ev_job_queue_run_next] starts the first
    waiting job, if there is one. *)
Lemma run_next_starts st :
  (forall j, In j (queued st) -> async j = true /\ job_kind j = Render) ->
  (queued st = [] /\ ev_job_queue_run_next st = Ok st) \/
  (exists j rest st',
      queued st = j :: rest /\ ev_job_queue_run_next st = Ok st' /\
      queued st' = rest /\ async_rendering st' = true /\
      in_flight st' = in_flight st ++ [j] /\
      calls st' = calls st ++ [g_signal_connect_finished j; ev_job_render_run j]).
Proof.
  unfold queued. intros Hq.
  destruct (queue async_render_queue_high st) as [|j r] eqn:Hh.
  - destruct (queue async_render_queue_low st) as [|j r] eqn:Hl.
    + left. split; [reflexivity |]. now apply run_next_idle.
    + right. destruct (Hq j) as [Ha Hk]; [simpl; auto |].
      eexists j, r, _. split; [reflexivity |].
      split; [rewrite (run_next_low st j r Hh Hl);
              apply (handle_job_async j _ Ha Hk) |].
      unfold queue, set_queue in *. cbn [queues async_rendering in_flight calls].
      rewrite contents_store_same, contents_store_other by discriminate.
      rewrite Hh. repeat split.
  - right. destruct (Hq j) as [Ha Hk]; [simpl; auto |].
    eexists j, (r ++ queue async_render_queue_low st), _. split; [reflexivity |].
    split; [rewrite (run_next_high st j r Hh);
            apply (handle_job_async j _ Ha Hk) |].
    unfold queue, set_queue in *. cbn [queues async_rendering in_flight calls].
    rewrite contents_store_same, contents_store_other by discriminate.
    repeat split.
Qed.

Lemma run_next_inv st :
  NoDup (queued st) ->
  (forall j, In j (queued st) ->
             async j = true /\ job_kind j = Render /\ handlers j st = 0) ->
  async_rendering st = false -> in_flight st = [] ->
  exists st',
    ev_job_queue_run_next st = Ok st' /\ async_inv st' /\
    in_flight st' = firstn 1 (queued st) /\ queued st' = skipn 1 (queued st).
Proof.
  intros Hnd Hq Hidle Hfl.
  destruct (run_next_starts st)
    as [(He & ->) | (j & rest & st' & He & -> & Hrest & Hbusy & Hfl' & Hcalls)].
  - intros j Hj. destruct (Hq j Hj) as (? & ? & _). auto.
  - exists st. rewrite He. split; [reflexivity |]. split; [| now rewrite Hfl].
    split; [exact Hnd |]. split; [exact Hq |]. left. auto.
  - exists st'. rewrite He, Hfl', Hfl, Hrest. simpl.
    rewrite He in Hnd, Hq. inversion Hnd as [|? ? Hnot Hnd']; subst.
    assert (Hh : forall x, handlers x st'
                           = handlers x st + (if EvJob_eq_dec j x then 1 else 0)).
    { intros x. unfold handlers. rewrite Hcalls. apply count_connect. }
    split; [reflexivity |]. split; [| split; reflexivity].
    split; [exact Hnd' |]. split.
    + intros x Hx. destruct (Hq x (or_intror Hx)) as (Ha & Hk & Hz).
      split; [exact Ha |]. split; [exact Hk |].
      rewrite Hh, Hz. destruct (EvJob_eq_dec j x) as [-> | _]; [| reflexivity].
      contradiction.
    + right. split; [exact Hbusy |]. exists j. split; [now rewrite Hfl', Hfl |].
      rewrite Hh. destruct (Hq j (or_introl eq_refl)) as (_ & _ & ->).
      now destruct (EvJob_eq_dec j j).
Qed.

End Dispatcher.

Section Serialization.

Lemma queued_push_tail job p st :
  Permutation (job :: queued st)
    (queued (add_job_to_async_queue
               (match p with
                | EV_JOB_PRIORITY_HIGH => async_render_queue_high
                | EV_JOB_PRIORITY_LOW => async_render_queue_low
                end) job st)).
Proof.
  unfold queued, add_job_to_async_queue, g_queue_push_tail, GLib.g_queue_push_tail.
  destruct p.
  - rewrite queue_set_queue_same, queue_set_queue_other by discriminate.
    rewrite app_assoc. apply Permutation_cons_append.
  - rewrite queue_set_queue_same, queue_set_queue_other by discriminate.
    apply (Permutation_app_tail _ (Permutation_cons_append _ job)).
Qed.

(** While a job is being rendered, a submission only appends. *)
Lemma submit_busy st job p :
  async job = true -> job_kind job = Render ->
  async_rendering st = true ->
  exists st',
    ev_job_queue_add_job job p st = Ok st' /\
    async_rendering st' = true /\ in_flight st' = in_flight st /\
    calls st' = calls st /\ Permutation (job :: queued st) (queued st').
Proof.
  intros Ha Hk Hbusy. eexists. split.
  - apply (add_job_busy job p _ st Ha (find_queue_async job p Ha Hk) Hbusy).
  - repeat split; try assumption.
    replace (match p with
             | EV_JOB_PRIORITY_LOW => async_render_queue_low
             | EV_JOB_PRIORITY_HIGH => async_render_queue_high
             end)
      with (match p with
            | EV_JOB_PRIORITY_HIGH => async_render_queue_high
            | EV_JOB_PRIORITY_LOW => async_render_queue_low
            end) by now destruct p.
    apply queued_push_tail.
Qed.

Lemma submit_inv st job p st' :
  async_inv st ->
  async job = true -> job_kind job = Render -> newly_created job st ->
  ev_job_queue_add_job job p st = Ok st' ->
  async_inv st'.
Proof.
  intros (Hnd & Hq & Hmode) Ha Hk [Hnew Hzero] Hadd.
  assert (Hfresh : ~ In job (queued st)).
  { unfold queued. rewrite in_app_iff. intros [H | H]; exact (Hnew _ H). }
  destruct Hmode as [(Hidle & Hfl & He) | (Hbusy & j & Hfl & Hone)].
  - rewrite (add_job_idle job p _ st Ha (find_queue_async job p Ha Hk) Hidle) in Hadd.
    pose proof (queued_push_tail job p st) as Hperm. rewrite He in Hperm.
    apply Permutation_length_1_inv in Hperm.
    destruct (run_next_inv
                (add_job_to_async_queue
                   (match p with
                    | EV_JOB_PRIORITY_HIGH => async_render_queue_high
                    | EV_JOB_PRIORITY_LOW => async_render_queue_low
                    end) job st)) as (st'' & Hrun & Hinv & _).
    + rewrite Hperm. repeat constructor. simpl. tauto.
    + rewrite Hperm. intros x [<- | []]. auto.
    + exact Hidle.
    + exact Hfl.
    + replace (match p with
               | EV_JOB_PRIORITY_LOW => async_render_queue_low
               | EV_JOB_PRIORITY_HIGH => async_render_queue_high
               end)
        with (match p with
              | EV_JOB_PRIORITY_HIGH => async_render_queue_high
              | EV_JOB_PRIORITY_LOW => async_render_queue_low
              end) in Hadd by now destruct p.
      rewrite Hrun in Hadd. injection Hadd as <-. exact Hinv.
  - destruct (submit_busy st job p Ha Hk Hbusy)
      as (st'' & Hadd' & Hbusy' & Hfl' & Hcalls & Hperm).
    rewrite Hadd' in Hadd. injection Hadd as <-.
    assert (Hh : forall x, handlers x st'' = handlers x st).
    { intros x. unfold handlers. now rewrite Hcalls. }
    split; [| split].
    + apply (Permutation_NoDup Hperm). constructor; assumption.
    + intros x Hx. apply (Permutation_in _ (Permutation_sym Hperm)) in Hx.
      rewrite Hh. destruct Hx as [<- | Hx]; auto.
    + right. split; [exact Hbusy' |]. exists j. now rewrite Hfl', Hh.
Qed.

(** The completion of the job in flight: the callback runs once, clears
    the flag and starts the first waiting job, if there is one. *)
Lemma finished_inv st job :
  async_inv st -> In job (in_flight st) ->
  exists st',
    ev_job_finished job st = Ok st' /\ async_inv st' /\
    in_flight st' = firstn 1 (queued st) /\ queued st' = skipn 1 (queued st).
Proof.
  intros (Hnd & Hq & Hmode) Hin.
  destruct Hmode as [(_ & Hfl & _) | (Hbusy & j & Hfl & Hone)].
  - rewrite Hfl in Hin. contradiction.
  - rewrite Hfl in Hin. destruct Hin as [<- | []].
    unfold ev_job_finished. rewrite Hone, Hfl. unfold landed. simpl.
    destruct (EvJob_eq_dec j j) as [_ | Hne]; [| contradiction Hne; reflexivity].
    simpl. unfold job_finished_cb.
    destruct (run_next_inv (set_async_rendering false (set_in_flight [] st)))
      as (st' & Hrun & Hinv & Hfl' & Hrest); try assumption; try reflexivity.
    exists st'. rewrite Hrun. simpl. auto.
Qed.

Lemma reachable_inv st : async_reachable st -> async_inv st.
Proof.
  induction 1 as [| st job p st' _ IH Ha Hk Hnew Hadd | st job st' _ IH Hin Hfin].
  - split; [constructor |]. split; [intros j [] |]. left. auto.
  - exact (submit_inv st job p st' IH Ha Hk Hnew Hadd).
  - destruct (finished_inv st job IH Hin) as (st'' & Hfin' & Hinv & _).
    rewrite Hfin' in Hfin. injection Hfin as <-. exact Hinv.
Qed.

End Serialization.

(** C2, as stated, fails: not every sequence of submissions and
    completions keeps one job in flight.  [handle_job] connects
    [job_finished_cb] each time it handles a job (line 119) and nothing
    disconnects it, so a job that is submitted again after it was rendered
    carries two handlers.  Here A is submitted, completes, and is submitted
    again; B and C are submitted while A is being rendered and wait.  The
    completion of A then runs the callback twice: the first run starts B,
    the second clears the flag and starts C, while B is still in flight
    and no completion of B has come. *)
Lemma C2_counterexample :
  let A := mkJob 1 Render true in
  let B := mkJob 2 Render true in
  let C := mkJob 3 Render true in
  let resubmitted :=
    mkState (store async_render_queue_high [B; C] (queues ev_job_queue_init)) true
      [g_signal_connect_finished A; ev_job_render_run A;
       g_signal_connect_finished A; ev_job_render_run A] [A] in
  (st1 <- ev_job_queue_add_job A EV_JOB_PRIORITY_HIGH ev_job_queue_init ;;
   st2 <- ev_job_finished A st1 ;;
   st3 <- ev_job_queue_add_job A EV_JOB_PRIORITY_HIGH st2 ;;
   st4 <- ev_job_queue_add_job B EV_JOB_PRIORITY_HIGH st3 ;;
   ev_job_queue_add_job C EV_JOB_PRIORITY_HIGH st4) = Ok resubmitted /\
  handlers A resubmitted = 2 /\
  ev_job_finished A resubmitted
  = Ok (mkState (queues ev_job_queue_init) true
          [g_signal_connect_finished A; ev_job_render_run A;
           g_signal_connect_finished A; ev_job_render_run A;
           g_signal_connect_finished B; ev_job_render_run B;
           g_signal_connect_finished C; ev_job_render_run C] [B; C]) /\
  ~ (forall st', ev_job_finished A resubmitted = Ok st' ->
                 length (in_flight st') <= 1).
Proof.
  cbv zeta. split; [reflexivity |]. split; [reflexivity |].
  split; [reflexivity |].
  intros H. specialize (H _ eq_refl). simpl in H. lia.
Qed.

(** C2, amended.  In every state the async dispatcher reaches through
    submissions of newly created async render jobs, each job being
    submitted once and never queued or handled before, and completions of
    the job in flight, at most one job is in flight, and the flag is set
    exactly when one is.  While the flag is set a submission returns with
    the job appended to its queue and nothing else changed: no call is
    made, so the job is not started.  The completion of the job in flight
    runs [job_finished_cb], once, which clears the flag and calls
    [ev_job_queue_run_next]: only then is the first waiting job started,
    and it is the only one in flight.  A second job submitted right after
    a first therefore starts only once the callback of the first has
    run. *)
Theorem C2_async_one_at_a_time : forall st,
  async_reachable st ->
  length (in_flight st) <= 1 /\
  (async_rendering st = true <-> length (in_flight st) = 1) /\
  (forall job p,
      async job = true -> job_kind job = Render ->
      async_rendering st = true ->
      exists st',
        ev_job_queue_add_job job p st = Ok st' /\
        async_rendering st' = true /\ in_flight st' = in_flight st /\
        calls st' = calls st /\ Permutation (job :: queued st) (queued st')) /\
  (forall job,
      In job (in_flight st) ->
      exists st',
        ev_job_finished job st = Ok st' /\
        ev_job_finished job st = job_finished_cb job (set_in_flight [] st) /\
        job_finished_cb job (set_in_flight [] st)
        = ev_job_queue_run_next (set_async_rendering false (set_in_flight [] st)) /\
        in_flight st' = firstn 1 (queued st) /\
        queued st' = skipn 1 (queued st) /\
        async_reachable st').
Proof.
  intros st Hreach. pose proof (reachable_inv st Hreach) as Hinv.
  pose proof Hinv as (Hnd & Hq & Hmode).
  split; [| split; [| split]].
  - destruct Hmode as [(_ & -> & _) | (_ & j & -> & _)]; simpl; lia.
  - destruct Hmode as [(Hidle & -> & _) | (Hbusy & j & -> & _)]; simpl.
    + rewrite Hidle. split; discriminate.
    + rewrite Hbusy. tauto.
  - intros job p. apply submit_busy.
  - intros job Hin.
    destruct (finished_inv st job Hinv Hin) as (st' & Hfin & _ & Hfl & Hrest).
    exists st'. split; [exact Hfin |].
    split; [| split; [reflexivity | split; [exact Hfl | split; [exact Hrest |]]]].
    + destruct Hmode as [(_ & Hnone & _) | (_ & j & Hfl0 & Hone)].
      * rewrite Hnone in Hin. contradiction.
      * rewrite Hfl0 in Hin. destruct Hin as [<- | []].
        unfold ev_job_finished. rewrite Hone, Hfl0. unfold landed. simpl.
        destruct (EvJob_eq_dec j j) as [_ | Hne]; [| contradiction Hne; reflexivity].
        simpl. now destruct (job_finished_cb j (set_in_flight [] st)).
    + exact (reach_finished st job st' Hreach Hin Hfin).
Qed.

Lemma C2_async_one_at_a_time_witness :
  let A := mkJob 1 Render true in
  let B := mkJob 2 Render true in
  let st :=
    mkState (store async_render_queue_low [B] (queues ev_job_queue_init)) true
      [g_signal_connect_finished A; ev_job_render_run A] [A] in
  async_reachable st /\
  length (in_flight st) <= 1 /\
  exists st', ev_job_finished A st = Ok st' /\ in_flight st' = [B].
Proof.
  intros A B st.
  assert (Hreach : async_reachable st).
  { apply (reach_submit
             (mkState (queues ev_job_queue_init) true
                [g_signal_connect_finished A; ev_job_render_run A] [A])
             B EV_JOB_PRIORITY_LOW).
    - apply (reach_submit ev_job_queue_init A EV_JOB_PRIORITY_HIGH).
      + apply reach_init.
      + reflexivity.
      + reflexivity.
      + split; [intros q; destruct q; simpl; tauto | reflexivity].
      + reflexivity.
    - reflexivity.
    - reflexivity.
    - split; [intros q; destruct q; simpl; tauto | reflexivity].
    - reflexivity. }
  split; [exact Hreach |].
  destruct (C2_async_one_at_a_time st Hreach) as (Hlen & _ & _ & Hfin).
  split; [exact Hlen |].
  destruct (Hfin A (or_introl eq_refl)) as (st' & Hrun & _ & _ & Hfl & _).
  exists st'. split; [exact Hrun | exact Hfl].
Defined.

(** ** First in, first out *)

Section Fifo.

Lemma scan_order_sync q : In q scan_order -> sync_queue q.
Proof.
  simpl. intros H.
  repeat (destruct H as [<- | H]; [split; discriminate |]). contradiction.
Qed.

Lemma executed_handle_sync job st :
  executed (mkState (queues st) (async_rendering st)
              (calls st ++ run_call job ++ [g_idle_add_notify_finished job])
              (in_flight st))
  = executed st ++ [job].
Proof.
  unfold executed. cbn [calls]. rewrite !flat_map_app. f_equal.
  unfold run_call, EV_IS_JOB_RENDER, EV_IS_JOB_THUMBNAIL, EV_IS_JOB_LINKS,
    EV_IS_JOB_LOAD, EV_IS_JOB_FONTS, EV_IS_JOB_PRINT.
  now destruct (job_kind job).
Qed.

(** One turn of the worker: the head of the first non-empty queue is
    popped and run, or nothing happens. *)
Lemma worker_turn_cases st :
  blocking_queues_hold_blocking_jobs st ->
  (exists q job rest st',
      sync_queue q /\ queue q st = job :: rest /\
      worker_turn st = Ok (Some (q, job), st') /\
      (forall q', queue q' st' = if GQueue_eq_dec q q' then rest else queue q' st) /\
      executed st' = executed st ++ [job])
  \/ worker_turn st = Ok (None, st).
Proof.
  intros Hst. unfold worker_turn.
  destruct (search_cases st)
    as [(q & job & rest & Hq & Hhead & _ & -> & ->) | (_ & -> & _ & ->)].
  - left. pose proof (scan_order_sync q Hq) as Hsync.
    assert (Ha : async job = false).
    { apply (Hst q job Hsync). rewrite Hhead. simpl. auto. }
    rewrite (handle_job_sync job _ Ha). simpl.
    eexists q, job, rest, _. split; [exact Hsync |].
    split; [exact Hhead |]. split; [reflexivity |]. split.
    + intros q'. unfold queue, set_queue. cbn [queues].
      destruct (GQueue_eq_dec q q') as [<- | Hne].
      * apply contents_store_same.
      * now apply contents_store_other.
    + apply (executed_handle_sync job (set_queue q rest st)).
  - right. reflexivity.
Qed.

Lemma run_sync_fifo ops : forall st,
  blocking_queues_hold_blocking_jobs st ->
  (forall job p, In (Add job p) ops -> async job = false) ->
  exists log st',
    run_sync ops st = Ok (log, st') /\
    (forall q, sync_queue q ->
               queue q st ++ added_to q ops = popped_from q log ++ queue q st') /\
    executed st' = executed st ++ map snd log.
Proof.
  induction ops as [|op ops IH]; intros st Hst Hops.
  - exists [], st. simpl. repeat split.
    + intros q _. now rewrite app_nil_r.
    + now rewrite app_nil_r.
  - destruct op as [job p |].
    + destruct (add_job_sync job p st (Hops job p (or_introl eq_refl)))
        as (q0 & Hfind & Hsync0 & Hadd).
      destruct (IH (add_job_to_queue_locked q0 job st))
        as (log & st' & Hrun & Hfifo & Hexec).
      * intros q j Hq Hin. apply in_push_tail in Hin.
        destruct Hin as [-> | Hin]; [| exact (Hst q j Hq Hin)].
        apply (Hops job p). simpl. auto.
      * intros j p' Hin. apply (Hops j p'). simpl. auto.
      * exists log, st'. simpl. rewrite Hadd. simpl. rewrite Hrun.
        split; [reflexivity |]. split; [| exact Hexec].
        intros q Hq. rewrite <- (Hfifo q Hq), Hfind.
        unfold add_job_to_queue_locked, g_queue_push_tail, GLib.g_queue_push_tail.
        destruct (GQueue_eq_dec q q0) as [-> | Hne].
        -- rewrite queue_set_queue_same, <- app_assoc. reflexivity.
        -- rewrite queue_set_queue_other by congruence. reflexivity.
    + assert (Hrest : forall job p, In (Add job p) ops -> async job = false).
      { intros j p' Hin. apply (Hops j p'). simpl. auto. }
      destruct (worker_turn_cases st Hst)
        as [(q0 & job & rest & st1 & Hsync0 & Hhead & Hturn & Hqueues & Hexec1) | Hturn].
      * destruct (IH st1) as (log & st' & Hrun & Hfifo & Hexec); [| exact Hrest |].
        -- intros q j Hq Hin. rewrite Hqueues in Hin.
           destruct (GQueue_eq_dec q0 q) as [<- | _].
           ++ apply (Hst q0 j Hq). rewrite Hhead. simpl. auto.
           ++ exact (Hst q j Hq Hin).
        -- exists ((q0, job) :: log), st'. simpl. rewrite Hturn. simpl.
           rewrite Hrun. simpl. split; [reflexivity |]. split.
           ++ intros q Hq. specialize (Hfifo q Hq). rewrite Hqueues in Hfifo.
              unfold popped_from in *. simpl.
              destruct (GQueue_eq_dec q q0) as [-> | Hne].
              ** destruct (GQueue_eq_dec q0 q0) as [_ | Hne];
                   [| contradiction Hne; reflexivity].
                 rewrite Hhead. simpl. now rewrite Hfifo.
              ** destruct (GQueue_eq_dec q0 q) as [-> | _];
                   [contradiction Hne; reflexivity |].
                 exact Hfifo.
           ++ rewrite Hexec, Hexec1, <- app_assoc. reflexivity.
      * destruct (IH st Hst Hrest) as (log & st' & Hrun & Hfifo & Hexec).
        exists log, st'. simpl. rewrite Hturn. simpl. rewrite Hrun. simpl.
        auto.
Qed.

End Fifo.

(** C5.  Take any sequence of additions of blocking jobs and turns of the
    worker, with no removal and no priority change.  For each queue, the
    jobs it held at the start followed by the jobs added to it, in the
    order of the additions, are the jobs the worker popped from it, in the
    order of the pops, followed by the jobs still in it: what is added
    first is popped first.  The worker runs each job as it pops it, so the
    jobs are executed in the order of the pops.  In particular jobs A, B,
    C added in that order to one queue are popped and executed in that
    order. *)
Theorem C5_fifo_within_queue : forall ops st,
  blocking_queues_hold_blocking_jobs st ->
  (forall job p, In (Add job p) ops -> async job = false) ->
  exists log st',
    run_sync ops st = Ok (log, st') /\
    (forall q, sync_queue q ->
               queue q st ++ added_to q ops = popped_from q log ++ queue q st') /\
    executed st' = executed st ++ map snd log.
Proof.
  intros ops st. apply run_sync_fifo.
Qed.

Lemma C5_fifo_within_queue_witness :
  let A := mkJob 1 Thumbnail false in
  let B := mkJob 2 Thumbnail false in
  let C := mkJob 3 Thumbnail false in
  let R := mkJob 4 Render false in
  let ops := [Add A EV_JOB_PRIORITY_LOW; Add B EV_JOB_PRIORITY_LOW;
              Add R EV_JOB_PRIORITY_LOW; WorkerTurn;
              Add C EV_JOB_PRIORITY_LOW; WorkerTurn; WorkerTurn; WorkerTurn] in
  exists log st',
    run_sync ops ev_job_queue_init = Ok (log, st') /\
    popped_from thumbnail_queue_low log = [A; B; C] /\
    executed st' = [R; A; B; C].
Proof.
  intros A B C R ops.
  destruct (C5_fifo_within_queue ops ev_job_queue_init)
    as (log & st' & Hrun & Hfifo & Hexec).
  - intros q job _ Hin. destruct q; simpl in Hin; contradiction.
  - intros job p Hin. simpl in Hin.
    repeat (destruct Hin as [Hin | Hin];
            [first [discriminate Hin | injection Hin as <- _; reflexivity] |]).
    contradiction.
  - exists log, st'. split; [exact Hrun |].
    assert (Hrun' : run_sync ops ev_job_queue_init
                    = Ok ([(render_queue_low, R); (thumbnail_queue_low, A);
                           (thumbnail_queue_low, B); (thumbnail_queue_low, C)],
                          mkState (queues ev_job_queue_init) false
                            [ev_job_render_run R; g_idle_add_notify_finished R;
                             ev_job_thumbnail_run A; g_idle_add_notify_finished A;
                             ev_job_thumbnail_run B; g_idle_add_notify_finished B;
                             ev_job_thumbnail_run C; g_idle_add_notify_finished C] []))
      by reflexivity.
    rewrite Hrun in Hrun'. injection Hrun' as -> ->.
    split; reflexivity.
Defined.

(** ** The queues only ever hold jobs that were accepted

    The hypothesis of C8 on the async queues holds at the start and is
    kept by every entry point of the file. *)

Section Accepted.

Lemma within_refl st job : within st st job.
Proof. intros q j H. auto. Qed.

Lemma within_trans st1 st2 st3 job :
  within st3 st2 job -> within st2 st1 job -> within st3 st1 job.
Proof.
  intros H32 H21 q j H. destruct (H32 q j H) as [-> | H']; auto.
Qed.

Lemma within_set_queue q l st job :
  (forall j, In j l -> j = job \/ In j (queue q st)) ->
  within (set_queue q l st) st job.
Proof.
  intros Hl q' j. destruct (GQueue_eq_dec q q') as [<- | Hne].
  - rewrite queue_set_queue_same. apply Hl.
  - rewrite (queue_set_queue_other _ _ _ _ Hne). auto.
Qed.

Lemma within_same_queues st' st job :
  queues st' = queues st -> within st' st job.
Proof. intros H q j. unfold queue. rewrite H. auto. Qed.

Lemma in_delete_link l i x :
  In x (GLib.g_queue_delete_link l i) -> In x l.
Proof.
  revert i. induction l as [|y l IH]; intros [|i]; simpl; auto.
  intros [-> | H]; eauto.
Qed.

Lemma within_pop_head q st job :
  within (snd (g_queue_pop_head q st)) st job.
Proof.
  unfold g_queue_pop_head.
  destruct (queue q st) as [|x l] eqn:E; simpl; apply within_set_queue;
    rewrite E; simpl; auto.
Qed.

Lemma within_push_tail q st job :
  within (g_queue_push_tail q job st) st job.
Proof.
  apply within_set_queue. unfold GLib.g_queue_push_tail.
  intros j Hin. apply in_app_iff in Hin. simpl in Hin. intuition.
Qed.

Lemma within_remove q job' st job :
  within (snd (remove_job_from_queue_locked q job' st)) st job.
Proof.
  unfold remove_job_from_queue_locked.
  destruct (GLib.g_queue_find (queue q st) job'); simpl.
  - apply within_set_queue. intros j Hin. right.
    exact (in_delete_link _ _ _ Hin).
  - apply within_refl.
Qed.

Lemma within_move job old_queue new_queue st :
  within (snd (move_job job old_queue new_queue st)) st job /\
  within (snd (move_job_async job old_queue new_queue st)) st job.
Proof.
  unfold move_job, move_job_async, add_job_to_queue_locked, add_job_to_async_queue.
  pose proof (within_remove old_queue job st job) as H.
  destruct (remove_job_from_queue_locked old_queue job st) as [[|] st1];
    simpl in *; split; try exact H;
    exact (within_trans _ _ _ _ (within_push_tail new_queue st1 job) H).
Qed.

Lemma handle_job_queues job st st' :
  handle_job job st = Ok st' -> queues st' = queues st.
Proof.
  destruct (async job) eqn:Ha.
  - destruct (EvJobKind_eq_dec (job_kind job) Render) as [Hk | Hk].
    + rewrite (handle_job_async job st Ha Hk). intros H. now injection H as <-.
    + rewrite (handle_job_asserts job st Ha Hk). discriminate.
  - rewrite (handle_job_sync job st Ha). intros H. now injection H as <-.
Qed.

Lemma within_run_next st st' job :
  ev_job_queue_run_next st = Ok st' -> within st' st job.
Proof.
  unfold ev_job_queue_run_next.
  pose proof (within_pop_head async_render_queue_high st job) as Hh.
  destruct (g_queue_pop_head async_render_queue_high st) as [[j|] st1]; simpl in Hh.
  - intros H. apply handle_job_queues in H.
    exact (within_trans _ _ _ _ (within_same_queues _ _ job H) Hh).
  - pose proof (within_pop_head async_render_queue_low st1 job) as Hl.
    destruct (g_queue_pop_head async_render_queue_low st1) as [[j|] st2]; simpl in Hl.
    + intros H. apply handle_job_queues in H.
      exact (within_trans _ _ _ _ (within_same_queues _ _ job H)
               (within_trans _ _ _ _ Hl Hh)).
    + intros H. injection H as <-. exact (within_trans _ _ _ _ Hl Hh).
Qed.

Lemma within_well_formed st' st job :
  well_formed job -> within st' st job ->
  async_queues_well_formed st -> async_queues_well_formed st'.
Proof.
  intros Hj Hw Hst j Hin. apply in_app_iff in Hin.
  destruct Hin as [Hin | Hin]; apply Hw in Hin;
    destruct Hin as [-> | Hin]; try exact Hj; apply Hst, in_app_iff; auto.
Qed.

Lemma find_queue_well_formed job p q :
  find_queue job p = Ok q -> well_formed job.
Proof.
  unfold find_queue, well_formed, EV_IS_JOB_RENDER.
  destruct (async job); [| discriminate].
  destruct (job_kind job); try discriminate. reflexivity.
Qed.

(** The start state has the property and every entry point keeps it. *)
Lemma async_queues_well_formed_kept st :
  async_queues_well_formed ev_job_queue_init /\
  (async_queues_well_formed st ->
   (forall job p st',
       ev_job_queue_add_job job p st = Ok st' -> async_queues_well_formed st') /\
   (forall job p found st',
       ev_job_queue_update_job job p st = Ok (found, st') ->
       async_queues_well_formed st') /\
   (forall job found st',
       ev_job_queue_remove_job job st = Ok (found, st') ->
       async_queues_well_formed st') /\
   (forall job st',
       job_finished_cb job st = Ok st' -> async_queues_well_formed st') /\
   (forall job st',
       search_for_jobs_unlocked st = (job, st') -> async_queues_well_formed st')).
Proof.
  split; [intros j Hin; simpl in Hin; contradiction |].
  intros Hst. split; [| split; [| split; [| split]]].
  - intros job p st'. unfold ev_job_queue_add_job.
    destruct (find_queue job p) as [q|] eqn:Hq; [| discriminate]. simpl.
    pose proof (find_queue_well_formed job p q Hq) as Hj.
    pose proof (within_push_tail q st job) as Hpush.
    unfold add_job_to_queue_locked, add_job_to_async_queue.
    destruct (negb (async job)).
    + intros H. injection H as <-. exact (within_well_formed _ _ _ Hj Hpush Hst).
    + destruct (negb (async_rendering st)).
      * intros H. apply (within_run_next _ _ job) in H.
        exact (within_well_formed _ _ _ Hj (within_trans _ _ _ _ H Hpush) Hst).
      * intros H. injection H as <-. exact (within_well_formed _ _ _ Hj Hpush Hst).
  - intros job p found st'. unfold ev_job_queue_update_job.
    assert (Hmove : forall o n,
               (Ok (move_job job o n st) = Ok (found, st') \/
                Ok (move_job_async job o n st) = Ok (found, st')) ->
               within st' st job).
    { intros o n [H | H]; injection H as H;
        destruct (within_move job o n st) as [H1 H2];
        [rewrite H in H1; exact H1 | rewrite H in H2; exact H2]. }
    unfold EV_IS_JOB_RENDER, EV_IS_JOB_THUMBNAIL.
    destruct (async job) eqn:Ha, (job_kind job) eqn:Hk, p;
      try discriminate; intros H;
      (apply (within_well_formed st' st job);
       [ unfold well_formed; rewrite Ha, Hk; first [reflexivity | discriminate]
       | eapply Hmove; eauto
       | exact Hst ]).
  - intros job found st'. unfold ev_job_queue_remove_job, remove_job_from_async_queue.
    assert (Hone : forall q,
               Ok (remove_job_from_queue_locked q job st) = Ok (found, st') ->
               within st' st job).
    { intros q H. injection H as H.
      pose proof (within_remove q job st job) as Hw. now rewrite H in Hw. }
    assert (Htwo : forall h l,
               Ok (or_else (remove_job_from_queue_locked h job st)
                     (remove_job_from_queue_locked l job)) = Ok (found, st') ->
               within st' st job).
    { intros h l H. injection H as H. unfold or_else in H.
      pose proof (within_remove h job st job) as Hh.
      destruct (remove_job_from_queue_locked h job st) as [[|] st1]; simpl in Hh.
      - injection H as _ <-. exact Hh.
      - pose proof (within_remove l job st1 job) as Hl. rewrite H in Hl.
        exact (within_trans _ _ _ _ Hl Hh). }
    unfold EV_IS_JOB_RENDER, EV_IS_JOB_THUMBNAIL, EV_IS_JOB_LINKS, EV_IS_JOB_LOAD,
      EV_IS_JOB_FONTS, EV_IS_JOB_PRINT.
    destruct (async job) eqn:Ha, (job_kind job) eqn:Hk;
      try discriminate; intros H;
      (apply (within_well_formed st' st job);
       [ unfold well_formed; rewrite Ha, Hk; first [reflexivity | discriminate]
       | first [eapply Hone; exact H | eapply Htwo; exact H]
       | exact Hst ]).
  - intros job st' H. unfold job_finished_cb in H.
    apply (within_run_next _ _ (mkJob 0 Load false)) in H.
    apply (within_well_formed st' st (mkJob 0 Load false)); [discriminate | | exact Hst].
    exact (within_trans _ _ _ _ H (within_same_queues _ _ _ eq_refl)).
  - intros job st' H.
    destruct (search_cases st)
      as [(q & j & rest & _ & Hhead & _ & _ & Hs) | (_ & _ & _ & Hs)];
      rewrite Hs in H; injection H as _ <-; [| exact Hst].
    apply (within_well_formed _ st (mkJob 0 Load false)); [discriminate | | exact Hst].
    apply within_set_queue. rewrite Hhead. simpl. auto.
Qed.

End Accepted.

(** * Further properties of the code *)

(** ** A successful priority change *)

Section Moves.

Lemma find_first l1 l2 job :
  ~ In job l1 ->
  GLib.g_queue_find (l1 ++ job :: l2) job = Some (length l1) /\
  GLib.g_queue_delete_link (l1 ++ job :: l2) (length l1) = l1 ++ l2.
Proof.
  induction l1 as [|x l1 IH]; simpl; intros Hnot.
  - destruct (EvJob_eq_dec job job) as [_ | Hne]; [auto | contradiction Hne; reflexivity].
  - destruct (EvJob_eq_dec x job) as [-> | Hne]; [exfalso; auto |].
    destruct IH as [-> ->]; auto.
Qed.

Lemma remove_first q job st l1 l2 :
  queue q st = l1 ++ job :: l2 -> ~ In job l1 ->
  remove_job_from_queue_locked q job st = (true, set_queue q (l1 ++ l2) st).
Proof.
  intros Hq Hnot. unfold remove_job_from_queue_locked. rewrite Hq.
  destruct (find_first l1 l2 job Hnot) as [-> ->]. reflexivity.
Qed.

Lemma has_priority_two_queues job p old_queue new_queue :
  find_queue job (opposite p) = Ok old_queue ->
  find_queue job p = Ok new_queue ->
  has_priority job -> old_queue <> new_queue.
Proof.
  unfold find_queue, has_priority, EV_IS_JOB_RENDER, EV_IS_JOB_THUMBNAIL.
  intros Ho Hn [Hk | [Hk Ha]]; rewrite Hk in *; [destruct (async job) | rewrite Ha in *];
    destruct p; simpl in *; injection Ho as <-; injection Hn as <-; discriminate.
Qed.

Lemma occurrences_set_queue_any q x l st :
  occurrences x (set_queue q l st) + count_occ EvJob_eq_dec (queue q st) x
  = occurrences x st + count_occ EvJob_eq_dec l x.
Proof.
  destruct st as [[li rh rl th tl lo fo pr ah al] b c f].
  unfold occurrences, all_queues, queue, set_queue.
  destruct q; simpl; lia.
Qed.

Lemma occurrences_push_tail q x job st :
  occurrences x (g_queue_push_tail q job st)
  = occurrences x st + (if EvJob_eq_dec job x then 1 else 0).
Proof.
  unfold g_queue_push_tail, GLib.g_queue_push_tail.
  pose proof (occurrences_set_queue_any q x (queue q st ++ [job]) st) as H.
  rewrite count_occ_app in H. simpl in H.
  destruct (EvJob_eq_dec job x); lia.
Qed.

Lemma occurrences_remove q x job st :
  occurrences x (snd (remove_job_from_queue_locked q job st))
  + (if fst (remove_job_from_queue_locked q job st)
     then if EvJob_eq_dec job x then 1 else 0 else 0)
  = occurrences x st.
Proof.
  destruct (in_dec EvJob_eq_dec job (queue q st)) as [Hin | Hnot].
  - destruct (remove_present q job st Hin) as (l1 & l2 & Hq & _ & ->). simpl.
    pose proof (occurrences_set_queue_any q x (l1 ++ l2) st) as H.
    rewrite Hq, !count_occ_app in H. simpl in H.
    destruct (EvJob_eq_dec job x); lia.
  - rewrite (remove_absent q job st Hnot). simpl. lia.
Qed.

Lemma occurrences_move job old_queue new_queue st x :
  occurrences x (snd (move_job job old_queue new_queue st)) = occurrences x st /\
  occurrences x (snd (move_job_async job old_queue new_queue st)) = occurrences x st.
Proof.
  unfold move_job, move_job_async, add_job_to_queue_locked, add_job_to_async_queue.
  pose proof (occurrences_remove old_queue x job st) as H.
  destruct (remove_job_from_queue_locked old_queue job st) as [[|] st1];
    simpl in *; rewrite ?occurrences_push_tail; split; lia.
Qed.

End Moves.

Lemma update_moves_first : forall job p st old_queue new_queue l1 l2,
  has_priority job ->
  find_queue job (opposite p) = Ok old_queue ->
  find_queue job p = Ok new_queue ->
  queue old_queue st = l1 ++ job :: l2 -> ~ In job l1 ->
  exists st',
    ev_job_queue_update_job job p st = Ok (true, st') /\
    queue old_queue st' = l1 ++ l2 /\
    queue new_queue st' = queue new_queue st ++ [job] /\
    (forall q, q <> old_queue -> q <> new_queue -> queue q st' = queue q st) /\
    async_rendering st' = async_rendering st /\
    calls st' = calls st /\ in_flight st' = in_flight st.
Proof.
  intros job p st old_queue new_queue l1 l2 Hp Hold Hnew Hq Hnot.
  pose proof (has_priority_two_queues job p old_queue new_queue Hold Hnew Hp) as Hne.
  destruct (update_job_moves job p st Hp) as (o & n & Ho & Hn & Hupd).
  rewrite Hold in Ho. injection Ho as <-. rewrite Hnew in Hn. injection Hn as <-.
  exists (g_queue_push_tail new_queue job (set_queue old_queue (l1 ++ l2) st)).
  split.
  - rewrite Hupd. unfold move_job, move_job_async, add_job_to_queue_locked,
      add_job_to_async_queue.
    rewrite (remove_first old_queue job st l1 l2 Hq Hnot). now destruct (async job).
  - unfold g_queue_push_tail, GLib.g_queue_push_tail.
    split; [| split; [| split]].
    + rewrite queue_set_queue_other by congruence. apply queue_set_queue_same.
    + rewrite queue_set_queue_same. now rewrite queue_set_queue_other by exact Hne.
    + intros q Hqo Hqn. now rewrite !queue_set_queue_other by congruence.
    + repeat split.
Qed.

(** X1.  A priority change on a job that waits in the queue of the other
    priority succeeds: the call returns true, the first occurrence of the
    job leaves the old queue, the job is appended at the tail of the queue
    of the new priority, and nothing else changes; in particular no job
    is started. *)
Theorem update_job_moves_queued_job : forall job p st old_queue new_queue l1 l2,
  has_priority job ->
  find_queue job (opposite p) = Ok old_queue ->
  find_queue job p = Ok new_queue ->
  queue old_queue st = l1 ++ job :: l2 -> ~ In job l1 ->
  exists st',
    ev_job_queue_update_job job p st = Ok (true, st') /\
    queue old_queue st' = l1 ++ l2 /\
    queue new_queue st' = queue new_queue st ++ [job] /\
    (forall q, q <> old_queue -> q <> new_queue -> queue q st' = queue q st) /\
    async_rendering st' = async_rendering st /\
    calls st' = calls st /\ in_flight st' = in_flight st.
Proof.
  exact update_moves_first.
Qed.

Lemma update_job_moves_queued_job_witness :
  let A := mkJob 1 Thumbnail false in
  let B := mkJob 2 Thumbnail false in
  let st := set_queue thumbnail_queue_high [B]
              (set_queue thumbnail_queue_low [A; B; A] ev_job_queue_init) in
  exists st',
    ev_job_queue_update_job A EV_JOB_PRIORITY_HIGH st = Ok (true, st') /\
    queue thumbnail_queue_low st' = [B; A] /\
    queue thumbnail_queue_high st' = [B; A].
Proof.
  intros A B st.
  destruct (update_job_moves_queued_job A EV_JOB_PRIORITY_HIGH st
              thumbnail_queue_low thumbnail_queue_high [] [B; A])
    as (st' & Hupd & Hold & Hnew & _).
  - right. split; reflexivity.
  - reflexivity.
  - reflexivity.
  - reflexivity.
  - simpl. tauto.
  - exists st'. split; [exact Hupd |]. split; [exact Hold | exact Hnew].
Defined.

(** X2.  A priority change never loses and never duplicates a job: for a
    job of a kind with two priorities the call returns, and whatever its
    result, every job occurs in the ten queues as many times after the
    call as before. *)
Theorem update_job_conserves_jobs : forall job p st,
  has_priority job ->
  exists found st',
    ev_job_queue_update_job job p st = Ok (found, st') /\
    forall x, occurrences x st' = occurrences x st.
Proof.
  intros job p st Hp.
  destruct (update_job_moves job p st Hp) as (o & n & _ & _ & Hupd).
  rewrite Hupd.
  destruct (async job).
  - destruct (move_job_async job o n st) as [found st'] eqn:E.
    exists found, st'. split; [reflexivity |]. intros x.
    pose proof (proj2 (occurrences_move job o n st x)) as H. now rewrite E in H.
  - destruct (move_job job o n st) as [found st'] eqn:E.
    exists found, st'. split; [reflexivity |]. intros x.
    pose proof (proj1 (occurrences_move job o n st x)) as H. now rewrite E in H.
Qed.

Lemma update_job_conserves_jobs_witness :
  let A := mkJob 1 Render true in
  let st := set_queue async_render_queue_low [A; A] ev_job_queue_init in
  exists found st',
    ev_job_queue_update_job A EV_JOB_PRIORITY_HIGH st = Ok (found, st') /\
    occurrences A st' = 2.
Proof.
  intros A st.
  destruct (update_job_conserves_jobs A EV_JOB_PRIORITY_HIGH st)
    as (found & st' & Hupd & Hocc).
  - left. reflexivity.
  - exists found, st'. split; [exact Hupd |]. rewrite Hocc. reflexivity.
Defined.

(** ** The other jobs are left alone *)

Section OtherJobs.

Lemma others_than_app job l1 l2 :
  others_than job (l1 ++ l2) = others_than job l1 ++ others_than job l2.
Proof. apply remove_app. Qed.

Lemma others_than_self job l : others_than job (job :: l) = others_than job l.
Proof. apply remove_cons. Qed.

Lemma others_set_queue q q' job l st :
  others_than job l = others_than job (queue q st) ->
  others_than job (queue q' (set_queue q l st)) = others_than job (queue q' st).
Proof.
  intros H. destruct (GQueue_eq_dec q q') as [<- | Hne].
  - now rewrite queue_set_queue_same.
  - now rewrite (queue_set_queue_other q q' l st Hne).
Qed.

Lemma others_push_tail q q' job st :
  others_than job (queue q' (g_queue_push_tail q job st))
  = others_than job (queue q' st).
Proof.
  apply others_set_queue. unfold GLib.g_queue_push_tail.
  rewrite others_than_app, others_than_self. apply app_nil_r.
Qed.

Lemma others_remove q q' job st :
  others_than job (queue q' (snd (remove_job_from_queue_locked q job st)))
  = others_than job (queue q' st).
Proof.
  destruct (in_dec EvJob_eq_dec job (queue q st)) as [Hin | Hnot].
  - destruct (remove_present q job st Hin) as (l1 & l2 & Hq & _ & ->). simpl.
    apply others_set_queue.
    now rewrite Hq, !others_than_app, others_than_self.
  - now rewrite (remove_absent q job st Hnot).
Qed.

Lemma others_move job old_queue new_queue st q :
  others_than job (queue q (snd (move_job job old_queue new_queue st)))
  = others_than job (queue q st) /\
  others_than job (queue q (snd (move_job_async job old_queue new_queue st)))
  = others_than job (queue q st).
Proof.
  unfold move_job, move_job_async, add_job_to_queue_locked, add_job_to_async_queue.
  pose proof (others_remove old_queue q job st) as H.
  destruct (remove_job_from_queue_locked old_queue job st) as [[|] st1];
    simpl in *; rewrite ?others_push_tail; auto.
Qed.

Lemma others_or_else job h l st q :
  others_than job
    (queue q (snd (or_else (remove_job_from_queue_locked h job st)
                     (remove_job_from_queue_locked l job))))
  = others_than job (queue q st).
Proof.
  unfold or_else.
  pose proof (others_remove h q job st) as Hh.
  destruct (remove_job_from_queue_locked h job st) as [[|] st1]; simpl in *.
  - exact Hh.
  - now rewrite others_remove.
Qed.

End OtherJobs.

(** X3.  [ev_job_queue_update_job] and [ev_job_queue_remove_job] touch the
    job they are given and no other: whenever they are called on a job they
    accept, in each of the ten queues the jobs other than that one are the
    same after the call as before, in the same order. *)
Theorem update_and_remove_leave_other_jobs : forall job st,
  (forall p, has_priority job ->
     exists found st',
       ev_job_queue_update_job job p st = Ok (found, st') /\
       forall q, others_than job (queue q st') = others_than job (queue q st)) /\
  (well_formed job ->
     exists found st',
       ev_job_queue_remove_job job st = Ok (found, st') /\
       forall q, others_than job (queue q st') = others_than job (queue q st)).
Proof.
  intros job st. split.
  - intros p Hp.
    destruct (update_job_moves job p st Hp) as (o & n & _ & _ & Hupd).
    rewrite Hupd. destruct (async job).
    + destruct (move_job_async job o n st) as [found st'] eqn:E.
      exists found, st'. split; [reflexivity |]. intros q.
      pose proof (proj2 (others_move job o n st q)) as H. now rewrite E in H.
    + destruct (move_job job o n st) as [found st'] eqn:E.
      exists found, st'. split; [reflexivity |]. intros q.
      pose proof (proj1 (others_move job o n st q)) as H. now rewrite E in H.
  - intros Hwf.
    destruct (remove_job_cases job st Hwf)
      as [(before & q0 & after & l1 & l2 & _ & _ & Hq & _ & Hr) | (_ & Hr)].
    + exists true, (set_queue q0 (l1 ++ l2) st). split; [exact Hr |].
      intros q. apply others_set_queue.
      now rewrite Hq, !others_than_app, others_than_self.
    + exists false, st. split; [exact Hr | reflexivity].
Qed.

Lemma update_and_remove_leave_other_jobs_witness :
  let A := mkJob 1 Render false in
  let B := mkJob 2 Render false in
  let st := set_queue render_queue_low [B; A; B] ev_job_queue_init in
  (exists found st',
      ev_job_queue_update_job A EV_JOB_PRIORITY_HIGH st = Ok (found, st') /\
      others_than A (queue render_queue_low st') = [B; B]) /\
  (exists found st',
      ev_job_queue_remove_job A st = Ok (found, st') /\
      others_than A (queue render_queue_low st') = [B; B]).
Proof.
  intros A B st.
  destruct (update_and_remove_leave_other_jobs A st) as [Hupd Hrem]. split.
  - destruct (Hupd EV_JOB_PRIORITY_HIGH (or_introl eq_refl))
      as (found & st' & Hr & Ho).
    exists found, st'. split; [exact Hr |]. rewrite Ho. reflexivity.
  - destruct Hrem as (found & st' & Hr & Ho); [intros H; discriminate H |].
    exists found, st'. split; [exact Hr |]. rewrite Ho. reflexivity.
Defined.

(** ** Adding and removing *)

Section RoundTrip.

Lemma find_queue_candidate job p q :
  find_queue job p = Ok q -> In q (candidates job).
Proof.
  unfold find_queue, candidates, EV_IS_JOB_RENDER, EV_IS_JOB_THUMBNAIL,
    EV_IS_JOB_LOAD, EV_IS_JOB_LINKS, EV_IS_JOB_FONTS, EV_IS_JOB_PRINT.
  destruct (async job), (job_kind job), p; simpl; intros H;
    first [discriminate H | injection H as <-; tauto].
Qed.

Lemma set_queue_set_queue q l l' st :
  set_queue q l (set_queue q l' st) = set_queue q l st.
Proof.
  destruct st as [[li rh rl th tl lo fo pr ah al] b c f]. now destruct q.
Qed.

(** A job appended to a candidate queue, none of which held it, is what
    the removal finds and takes out again. *)
Lemma remove_after_push job q st :
  well_formed job -> In q (candidates job) ->
  (forall q', In q' (candidates job) -> ~ In job (queue q' st)) ->
  ev_job_queue_remove_job job (g_queue_push_tail q job st) = Ok (true, st).
Proof.
  intros Hwf Hq Hnone.
  assert (Hpushed : queue q (g_queue_push_tail q job st) = queue q st ++ [job])
    by apply queue_set_queue_same.
  assert (Hother : forall q', q' <> q ->
             queue q' (g_queue_push_tail q job st) = queue q' st).
  { intros q' Hne. apply queue_set_queue_other. congruence. }
  destruct (remove_job_cases job (g_queue_push_tail q job st) Hwf)
    as [(before & q0 & after & l1 & l2 & Hc & Hb & Hq0 & Hnot & Hr) | (Habs & _)].
  - rewrite Hr. do 2 f_equal.
    assert (Hin0 : In q0 (candidates job)) by (rewrite Hc; apply in_elt).
    destruct (GQueue_eq_dec q0 q) as [-> | Hne].
    + rewrite Hpushed in Hq0.
      assert (Hl : l1 = queue q st /\ l2 = []).
      { clear - Hq0 Hnot Hnone Hq.
        specialize (Hnone q Hq). revert l1 Hq0 Hnot.
        induction (queue q st) as [|x l IH]; intros l1 Hq0 Hnot.
        - destruct l1 as [|y l1]; simpl in Hq0.
          + injection Hq0 as <-. auto.
          + injection Hq0 as _ Hq0. now destruct l1.
        - destruct l1 as [|y l1]; simpl in Hq0.
          + injection Hq0 as -> _. exfalso. apply Hnone. simpl. auto.
          + injection Hq0 as <- Hq0.
            destruct (IH (fun H => Hnone (or_intror H)) l1 Hq0
                        (fun H => Hnot (or_intror H))) as [-> ->].
            auto. }
      destruct Hl as [-> ->]. rewrite app_nil_r.
      unfold g_queue_push_tail. rewrite set_queue_set_queue. apply set_queue_same.
    + exfalso. apply (Hnone q0 Hin0). rewrite <- (Hother q0 Hne), Hq0. apply in_elt.
  - exfalso. apply (Habs q Hq). rewrite Hpushed. apply in_elt.
Qed.

End RoundTrip.

(** X4.  Removing a job right after it was added undoes the addition.  A
    blocking job that is in none of the queues of its kind is appended by
    [ev_job_queue_add_job]; [ev_job_queue_remove_job] then returns true
    and the state is again the one before the addition.  The same holds
    for an async render job added while another one is being rendered. *)
Theorem remove_undoes_add : forall job p st,
  well_formed job ->
  (async job = true -> async_rendering st = true) ->
  (forall q, In q (candidates job) -> ~ In job (queue q st)) ->
  exists q st1,
    find_queue job p = Ok q /\
    ev_job_queue_add_job job p st = Ok st1 /\
    queue q st1 = queue q st ++ [job] /\
    ev_job_queue_remove_job job st1 = Ok (true, st).
Proof.
  intros job p st Hwf Hbusy Hnone.
  destruct (async job) eqn:Ha.
  - pose proof (find_queue_async job p Ha (Hwf Ha)) as Hq.
    eexists. eexists. split; [exact Hq |].
    split; [exact (add_job_busy job p _ st Ha Hq (Hbusy eq_refl)) |].
    unfold add_job_to_async_queue. split.
    + apply queue_set_queue_same.
    + apply remove_after_push; [exact Hwf | | exact Hnone].
      exact (find_queue_candidate job p _ Hq).
  - destruct (add_job_sync job p st Ha) as (q & Hq & _ & Hadd).
    exists q. eexists. split; [exact Hq |]. split; [exact Hadd |].
    unfold add_job_to_queue_locked. split.
    + apply queue_set_queue_same.
    + apply remove_after_push; [exact Hwf | | exact Hnone].
      exact (find_queue_candidate job p q Hq).
Qed.

Lemma remove_undoes_add_witness :
  let A := mkJob 1 Links false in
  let B := mkJob 2 Links false in
  let st := set_queue links_queue [B] ev_job_queue_init in
  exists st1,
    ev_job_queue_add_job A EV_JOB_PRIORITY_HIGH st = Ok st1 /\
    ev_job_queue_remove_job A st1 = Ok (true, st).
Proof.
  intros A B st.
  destruct (remove_undoes_add A EV_JOB_PRIORITY_HIGH st) as (q & st1 & _ & Hadd & _ & Hrem).
  - intros H. discriminate H.
  - intros H. discriminate H.
  - intros q [<- | []]. simpl. intros [H | []]. discriminate H.
  - exists st1. split; [exact Hadd | exact Hrem].
Defined.

(** X5.  The queue of a job depends on the priority for render and
    thumbnail jobs only.  For every job of the data model [find_queue]
    returns a queue for both priorities; the two queues differ exactly for
    the kinds with two priorities; and they are, high first, the queues
    that [ev_job_queue_remove_job] looks into for that job. *)
Theorem find_queue_and_priority : forall job,
  well_formed job ->
  exists low high,
    find_queue job EV_JOB_PRIORITY_LOW = Ok low /\
    find_queue job EV_JOB_PRIORITY_HIGH = Ok high /\
    (low <> high <-> has_priority job) /\
    candidates job = if GQueue_eq_dec low high then [high] else [high; low].
Proof.
  intros job Hwf. unfold well_formed in Hwf.
  unfold find_queue, candidates, has_priority, EV_IS_JOB_RENDER,
    EV_IS_JOB_THUMBNAIL, EV_IS_JOB_LOAD, EV_IS_JOB_LINKS, EV_IS_JOB_FONTS,
    EV_IS_JOB_PRINT.
  destruct (async job); [rewrite (Hwf eq_refl) |];
    try destruct (job_kind job); simpl;
    eexists; eexists; (split; [reflexivity |]); (split; [reflexivity |]);
    (split; [| reflexivity]);
    (split; [intros H; first [now left | now right | contradiction H; reflexivity]
            | intros [H | [H _]]; first [discriminate H | discriminate]]).
Qed.

Lemma find_queue_and_priority_witness :
  exists low high,
    find_queue (mkJob 1 Fonts false) EV_JOB_PRIORITY_LOW = Ok low /\
    find_queue (mkJob 1 Fonts false) EV_JOB_PRIORITY_HIGH = Ok high /\
    low = high.
Proof.
  destruct (find_queue_and_priority (mkJob 1 Fonts false))
    as (low & high & Hl & Hh & Hiff & _).
  - intros H. discriminate H.
  - exists low, high. split; [exact Hl |]. split; [exact Hh |].
    destruct (GQueue_eq_dec low high) as [Heq | Hne]; [exact Heq |].
    apply Hiff in Hne. destruct Hne as [H | [H _]]; discriminate H.
Defined.

(** ** Searching until the queues are empty *)

Section Drain.

(** The jobs of the eight queues, in the order of the search. *)
Lemma scan_after_pop q st job rest :
  In q scan_order ->
  queue q st = job :: rest ->
  (forall q', rank q' < rank q -> queue q' st = []) ->
  flat_map (fun q' => queue q' st) scan_order
  = job :: flat_map (fun q' => queue q' (set_queue q rest st)) scan_order.
Proof.
  intros Hq Hhead Hb.
  pose proof (Hb render_queue_high) as H0. pose proof (Hb thumbnail_queue_high) as H1.
  pose proof (Hb render_queue_low) as H2. pose proof (Hb links_queue) as H3.
  pose proof (Hb load_queue) as H4. pose proof (Hb thumbnail_queue_low) as H5.
  pose proof (Hb fonts_queue) as H6. clear Hb.
  destruct st as [[li rh rl th tl lo fo pr ah al] b c f].
  unfold scan_order, queue, set_queue in *. simpl in Hq.
  repeat (destruct Hq as [<- | Hq];
          [ simpl in *;
            repeat match goal with
                   | H : _ < _ -> _ |- _ =>
                       first [specialize (H ltac:(lia)) | clear H]
                   end;
            subst; reflexivity
          | ]).
  contradiction.
Qed.

Lemma search_n_order n : forall st,
  fst (search_n n st) = firstn n (flat_map (fun q => queue q st) scan_order).
Proof.
  induction n as [|n IH]; intros st; [reflexivity |].
  cbn [search_n].
  destruct (search_cases st)
    as [(q & job & rest & Hq & Hhead & Hb & _ & ->) | (He & _ & _ & ->)].
  - rewrite (scan_after_pop q st job rest Hq Hhead Hb). cbn [firstn].
    rewrite <- IH. now destruct (search_n n (set_queue q rest st)).
  - replace (flat_map (fun q => queue q st) scan_order) with (@nil EvJob);
      [reflexivity |].
    unfold scan_order. cbn [flat_map].
    now rewrite !He by (simpl; tauto).
Qed.

Lemma search_n_empties n : forall st,
  length (flat_map (fun q => queue q st) scan_order) <= n ->
  no_jobs_available_unlocked (snd (search_n n st)) = true.
Proof.
  induction n as [|n IH]; intros st Hlen.
  - apply no_jobs_iff. intros q Hq. cbn [search_n snd].
    destruct (queue q st) as [|x l] eqn:E; [reflexivity |].
    assert (Hin : In x (flat_map (fun q => queue q st) scan_order)).
    { apply in_flat_map. exists q. split; [exact Hq |]. rewrite E. simpl. auto. }
    destruct (flat_map (fun q => queue q st) scan_order); [contradiction |].
    simpl in Hlen. lia.
  - cbn [search_n].
    destruct (search_cases st)
      as [(q & job & rest & Hq & Hhead & Hb & _ & ->) | (_ & _ & Hn & ->)].
    + rewrite (scan_after_pop q st job rest Hq Hhead Hb) in Hlen.
      cbn [length] in Hlen. apply le_S_n in Hlen.
      specialize (IH (set_queue q rest st) Hlen).
      now destruct (search_n n (set_queue q rest st)).
    + exact Hn.
Qed.

End Drain.

(** X6.  Searching [n] times in a row, with no addition in between, finds
    the first [n] jobs of the list made of the render high queue, then the
    thumbnail high, render low, links, load, thumbnail low, fonts and
    print queues: a whole queue is served before the search moves on to
    the next one.  Once as many searches were made as there were jobs, the
    eight queues are empty. *)
Theorem search_n_drains_in_priority_order : forall n st,
  fst (search_n n st)
  = firstn n (queue render_queue_high st ++ queue thumbnail_queue_high st ++
              queue render_queue_low st ++ queue links_queue st ++
              queue load_queue st ++ queue thumbnail_queue_low st ++
              queue fonts_queue st ++ queue print_queue st) /\
  (length (queue render_queue_high st) + length (queue thumbnail_queue_high st) +
   length (queue render_queue_low st) + length (queue links_queue st) +
   length (queue load_queue st) + length (queue thumbnail_queue_low st) +
   length (queue fonts_queue st) + length (queue print_queue st) <= n ->
   no_jobs_available_unlocked (snd (search_n n st)) = true).
Proof.
  intros n st. split.
  - rewrite search_n_order. unfold scan_order. cbn [flat_map].
    now rewrite app_nil_r.
  - intros Hlen. apply search_n_empties. unfold scan_order. cbn [flat_map].
    rewrite !length_app. cbn [length]. lia.
Qed.

Lemma search_n_drains_in_priority_order_witness :
  let T1 := mkJob 1 Thumbnail false in
  let R1 := mkJob 2 Render false in
  let T2 := mkJob 3 Thumbnail false in
  let P1 := mkJob 4 Print false in
  let st := set_queue print_queue [P1]
              (set_queue thumbnail_queue_high [T2]
                 (set_queue render_queue_high [R1]
                    (set_queue thumbnail_queue_low [T1] ev_job_queue_init))) in
  fst (search_n 4 st) = [R1; T2; T1; P1] /\
  no_jobs_available_unlocked (snd (search_n 4 st)) = true.
Proof.
  intros T1 R1 T2 P1 st.
  destruct (search_n_drains_in_priority_order 4 st) as [Horder Hempty].
  split.
  - rewrite Horder. reflexivity.
  - apply Hempty. simpl. lia.
Defined.

(** ** The worker and the assertion of [handle_job] *)

Section WorkerSafety.

Lemma blocking_set_queue q l st :
  (forall j, In j l -> In j (queue q st)) ->
  blocking_queues_hold_blocking_jobs st ->
  blocking_queues_hold_blocking_jobs (set_queue q l st).
Proof.
  intros Hl Hst q' j Hq' Hin.
  destruct (GQueue_eq_dec q q') as [<- | Hne].
  - rewrite queue_set_queue_same in Hin. exact (Hst q j Hq' (Hl j Hin)).
  - rewrite (queue_set_queue_other q q' l st Hne) in Hin. exact (Hst q' j Hq' Hin).
Qed.

Lemma blocking_same_queues st st' :
  queues st' = queues st ->
  blocking_queues_hold_blocking_jobs st ->
  blocking_queues_hold_blocking_jobs st'.
Proof. intros H Hst q j Hq Hin. unfold queue in Hin. rewrite H in Hin. exact (Hst q j Hq Hin). Qed.

(** One step of the worker, from a safe point: it returns, the point
    reached is safe, and unless the step is the wait it leaves the
    variables of the async dispatcher as they were. *)
Lemma worker_step_safe others loc st :
  keeps_blocking others -> worker_safe loc st ->
  exists loc' st',
    ev_render_thread_step others loc st = Ok (loc', st') /\
    worker_safe loc' st' /\
    (loc <> at_cond_wait ->
     async_rendering st' = async_rendering st /\
     in_flight st' = in_flight st /\
     queue async_render_queue_high st' = queue async_render_queue_high st /\
     queue async_render_queue_low st' = queue async_render_queue_low st).
Proof.
  intros Hothers [Hst Hjob].
  destruct loc as [| | | [job|]]; cbn [ev_render_thread_step bind].
  - destruct (no_jobs_available_unlocked st); eexists; eexists;
      (split; [reflexivity |]); (split; [| auto]);
      (split; [exact Hst | discriminate]).
  - eexists; eexists. split; [reflexivity |]. split.
    + split; [exact (Hothers st Hst) | discriminate].
    + intros H. contradiction H. reflexivity.
  - destruct (search_cases st)
      as [(q & job & rest & Hq & Hhead & _ & _ & ->) | (_ & _ & _ & ->)].
    + eexists; eexists. split; [reflexivity |]. split.
      * split.
        -- apply blocking_set_queue; [| exact Hst].
           intros j Hin. rewrite Hhead. simpl. auto.
        -- intros j Hj. injection Hj as <-.
           apply (Hst q job (scan_order_sync q Hq)). rewrite Hhead. simpl. auto.
      * intros _. destruct (scan_order_sync q Hq) as [Hh Hl].
        repeat split; apply queue_set_queue_other; assumption.
    + eexists; eexists. split; [reflexivity |]. split; [| auto].
      split; [exact Hst | discriminate].
  - rewrite (handle_job_sync job st (Hjob job eq_refl)). cbn [bind].
    eexists; eexists. split; [reflexivity |]. split; [| intros _; repeat split].
    split; [| discriminate].
    apply (blocking_same_queues st); [reflexivity | exact Hst].
  - eexists; eexists. split; [reflexivity |]. split; [| auto].
    split; [exact Hst | discriminate].
Qed.

End WorkerSafety.

(** X7.  The worker thread never reaches the assertion of [handle_job].
    Started at the top of its loop, or at any point where the job it holds
    is a blocking one, with blocking jobs in its eight queues, it can be
    run for any number of steps, whatever the other threads add, move or
    remove while it waits, as long as they put blocking jobs only into its
    queues: every step returns, and the job it handles is a blocking job. *)
Theorem worker_never_asserts : forall others loc st,
  Forall keeps_blocking others ->
  worker_safe loc st ->
  exists loc' st',
    ev_render_thread others loc st = Ok (loc', st') /\ worker_safe loc' st'.
Proof.
  induction others as [|o others IH]; intros loc st Hall Hsafe.
  - exists loc, st. split; [reflexivity | exact Hsafe].
  - inversion Hall as [|? ? Ho Hrest]; subst.
    destruct (worker_step_safe o loc st Ho Hsafe) as (loc1 & st1 & Hstep & Hsafe1 & _).
    simpl. rewrite Hstep. simpl. exact (IH loc1 st1 Hrest Hsafe1).
Qed.

Lemma worker_never_asserts_witness :
  let A := mkJob 1 Load false in
  let produce := fun st => add_job_to_queue_locked load_queue A st in
  exists loc' st',
    ev_render_thread [produce; produce; produce; produce; produce] at_lock
      ev_job_queue_init = Ok (loc', st') /\
    worker_safe loc' st'.
Proof.
  intros A produce.
  assert (Hp : keeps_blocking produce).
  { intros st Hst q j Hq Hin. apply in_push_tail in Hin.
    destruct Hin as [-> | Hin]; [reflexivity | exact (Hst q j Hq Hin)]. }
  apply worker_never_asserts.
  - repeat constructor; exact Hp.
  - split.
    + intros q j _ Hin. destruct q; simpl in Hin; contradiction.
    + discriminate.
Defined.

(** X8.  No step of the worker itself touches the async dispatcher: from a
    point where the job it holds is a blocking one, every step other than
    the return of the wait leaves [async_rendering], the jobs in flight
    and the two async queues as they were. *)
Theorem worker_leaves_async_dispatcher : forall others loc st,
  worker_safe loc st ->
  loc <> at_cond_wait ->
  exists loc' st',
    ev_render_thread_step others loc st = Ok (loc', st') /\
    async_rendering st' = async_rendering st /\
    in_flight st' = in_flight st /\
    queue async_render_queue_high st' = queue async_render_queue_high st /\
    queue async_render_queue_low st' = queue async_render_queue_low st.
Proof.
  intros others loc st [Hst Hjob] Hloc.
  assert (Hstep : forall o, exists loc' st',
             ev_render_thread_step o loc st = Ok (loc', st') /\
             ev_render_thread_step others loc st = Ok (loc', st')).
  { intros o. destruct loc as [| | | [job|]]; simpl.
    - destruct (no_jobs_available_unlocked st); eauto.
    - contradiction Hloc. reflexivity.
    - destruct (search_for_jobs_unlocked st). eauto.
    - rewrite (handle_job_sync job st (Hjob job eq_refl)). simpl. eauto.
    - eauto. }
  destruct (Hstep (fun s => s)) as (loc1 & st1 & Hid & Hsame).
  destruct (worker_step_safe (fun s => s) loc st (fun s H => H) (conj Hst Hjob))
    as (loc' & st' & Hstep' & _ & Hasync).
  rewrite Hid in Hstep'. injection Hstep' as <- <-.
  exists loc1, st1. split; [exact Hsame |]. exact (Hasync Hloc).
Qed.

Lemma worker_leaves_async_dispatcher_witness :
  let A := mkJob 1 Render false in
  let B := mkJob 2 Render true in
  let st := mkState (store async_render_queue_low [B] (queues ev_job_queue_init))
              true [] [B] in
  exists loc' st',
    ev_render_thread_step (fun s => s) (at_handle (Some A)) st = Ok (loc', st') /\
    async_rendering st' = true /\ in_flight st' = [B] /\
    queue async_render_queue_low st' = [B].
Proof.
  intros A B st.
  destruct (worker_leaves_async_dispatcher (fun s => s) (at_handle (Some A)) st)
    as (loc' & st' & Hstep & Hflag & Hfl & _ & Hlow).
  - split.
    + intros q j [Hh Hl] Hin. destruct q; simpl in Hin; contradiction.
    + intros j Hj. injection Hj as <-. reflexivity.
  - discriminate.
  - exists loc', st'. rewrite Hflag, Hfl, Hlow. auto.
Defined.

(** ** Jobs stay in the queues of their kind *)

Section Routing.

Lemma arrives_refl st q0 job : arrives st st q0 job.
Proof. intros q j H. auto. Qed.

Lemma arrives_trans st1 st2 st3 q0 job :
  arrives st3 st2 q0 job -> arrives st2 st1 q0 job -> arrives st3 st1 q0 job.
Proof.
  intros H32 H21 q j H. destruct (H32 q j H) as [H' | H']; auto.
Qed.

Lemma arrives_set_queue q l st q0 job :
  (forall j, In j l -> In j (queue q st) \/ (q = q0 /\ j = job)) ->
  arrives (set_queue q l st) st q0 job.
Proof.
  intros Hl q' j. destruct (GQueue_eq_dec q q') as [<- | Hne].
  - rewrite queue_set_queue_same. apply Hl.
  - rewrite (queue_set_queue_other q q' l st Hne). auto.
Qed.

Lemma arrives_same_queues st' st q0 job :
  queues st' = queues st -> arrives st' st q0 job.
Proof. intros H q j. unfold queue. rewrite H. auto. Qed.

Lemma arrives_push_tail q0 job st :
  arrives (g_queue_push_tail q0 job st) st q0 job.
Proof.
  apply arrives_set_queue. unfold GLib.g_queue_push_tail.
  intros j Hin. apply in_app_iff in Hin. simpl in Hin. intuition.
Qed.

Lemma arrives_pop_head q st q0 job :
  arrives (snd (g_queue_pop_head q st)) st q0 job.
Proof.
  unfold g_queue_pop_head.
  destruct (queue q st) as [|x l] eqn:E; simpl; apply arrives_set_queue;
    rewrite E; simpl; auto.
Qed.

Lemma arrives_remove q job' st q0 job :
  arrives (snd (remove_job_from_queue_locked q job' st)) st q0 job.
Proof.
  unfold remove_job_from_queue_locked.
  destruct (GLib.g_queue_find (queue q st) job'); simpl.
  - apply arrives_set_queue. intros j Hin. left.
    exact (in_delete_link _ _ _ Hin).
  - apply arrives_refl.
Qed.

Lemma arrives_move job old_queue new_queue st :
  arrives (snd (move_job job old_queue new_queue st)) st new_queue job /\
  arrives (snd (move_job_async job old_queue new_queue st)) st new_queue job.
Proof.
  unfold move_job, move_job_async, add_job_to_queue_locked, add_job_to_async_queue.
  pose proof (arrives_remove old_queue job st new_queue job) as H.
  destruct (remove_job_from_queue_locked old_queue job st) as [[|] st1];
    simpl in *; split; try exact H;
    exact (arrives_trans _ _ _ _ _ (arrives_push_tail new_queue job st1) H).
Qed.

Lemma arrives_run_next st st' q0 job :
  ev_job_queue_run_next st = Ok st' -> arrives st' st q0 job.
Proof.
  unfold ev_job_queue_run_next.
  pose proof (arrives_pop_head async_render_queue_high st q0 job) as Hh.
  destruct (g_queue_pop_head async_render_queue_high st) as [[j|] st1]; simpl in Hh.
  - intros H. apply handle_job_queues in H.
    exact (arrives_trans _ _ _ _ _ (arrives_same_queues _ _ q0 job H) Hh).
  - pose proof (arrives_pop_head async_render_queue_low st1 q0 job) as Hl.
    destruct (g_queue_pop_head async_render_queue_low st1) as [[j|] st2]; simpl in Hl.
    + intros H. apply handle_job_queues in H.
      exact (arrives_trans _ _ _ _ _ (arrives_same_queues _ _ q0 job H)
               (arrives_trans _ _ _ _ _ Hl Hh)).
    + intros H. injection H as <-. exact (arrives_trans _ _ _ _ _ Hl Hh).
Qed.

Lemma routed_arrives st' st q0 job :
  well_formed job -> In q0 (candidates job) ->
  arrives st' st q0 job -> routed st -> routed st'.
Proof.
  intros Hwf Hq0 Harr Hst q j Hin.
  destruct (Harr q j Hin) as [H | [-> ->]]; [exact (Hst q j H) | auto].
Qed.

Lemma routed_subset st' st :
  (forall q0 job, arrives st' st q0 job) -> routed st -> routed st'.
Proof.
  intros Harr. apply (routed_arrives st' st load_queue (mkJob 0 Load false)).
  - intros H. discriminate H.
  - simpl. auto.
  - apply Harr.
Qed.

Lemma routed_blocking st :
  routed st -> blocking_queues_hold_blocking_jobs st /\ async_queues_well_formed st.
Proof.
  intros Hst. split.
  - intros q job [Hh Hl] Hin. destruct (Hst q job Hin) as [_ Hc].
    unfold candidates in Hc. destruct (async job); [| reflexivity].
    simpl in Hc. destruct Hc as [<- | [<- | []]]; [contradiction Hh | contradiction Hl];
      reflexivity.
  - intros job Hin. apply in_app_iff in Hin.
    destruct Hin as [Hin | Hin]; exact (proj1 (Hst _ job Hin)).
Qed.

End Routing.

(** X9.  The queues only hold jobs that belong there.  At the start, and
    after any call of [ev_job_queue_add_job], [ev_job_queue_update_job],
    [ev_job_queue_remove_job], [job_finished_cb], [handle_job] or
    [search_for_jobs_unlocked] that returns, every queued job is a job of
    the data model and sits in one of the queues that
    [ev_job_queue_remove_job] looks into for it.  In such a state the
    eight queues of the worker hold blocking jobs only and the two async
    queues hold jobs that [handle_job] accepts. *)
Theorem jobs_stay_routed :
  routed ev_job_queue_init /\
  forall st, routed st ->
    blocking_queues_hold_blocking_jobs st /\
    async_queues_well_formed st /\
    (forall job p st',
        ev_job_queue_add_job job p st = Ok st' -> routed st') /\
    (forall job p found st',
        ev_job_queue_update_job job p st = Ok (found, st') -> routed st') /\
    (forall job found st',
        ev_job_queue_remove_job job st = Ok (found, st') -> routed st') /\
    (forall job st', job_finished_cb job st = Ok st' -> routed st') /\
    (forall job st', handle_job job st = Ok st' -> routed st') /\
    (forall job st', search_for_jobs_unlocked st = (job, st') -> routed st').
Proof.
  split; [intros q job Hin; destruct q; simpl in Hin; contradiction |].
  intros st Hst.
  split; [exact (proj1 (routed_blocking st Hst)) |].
  split; [exact (proj2 (routed_blocking st Hst)) |].
  split; [| split; [| split; [| split; [| split]]]].
  - intros job p st'. unfold ev_job_queue_add_job.
    destruct (find_queue job p) as [q|] eqn:Hq; [| discriminate]. cbn [bind].
    pose proof (find_queue_well_formed job p q Hq) as Hwf.
    pose proof (find_queue_candidate job p q Hq) as Hc.
    pose proof (arrives_push_tail q job st) as Hpush.
    unfold add_job_to_queue_locked, add_job_to_async_queue.
    destruct (negb (async job)).
    + intros H. injection H as <-. exact (routed_arrives _ _ _ _ Hwf Hc Hpush Hst).
    + destruct (negb (async_rendering (g_queue_push_tail q job st))).
      * intros H. apply (arrives_run_next _ _ q job) in H.
        exact (routed_arrives _ _ _ _ Hwf Hc (arrives_trans _ _ _ _ _ H Hpush) Hst).
      * intros H. injection H as <-. exact (routed_arrives _ _ _ _ Hwf Hc Hpush Hst).
  - intros job p found st'. unfold ev_job_queue_update_job.
    assert (Hmove : forall o n,
               (Ok (move_job job o n st) = Ok (found, st') \/
                Ok (move_job_async job o n st) = Ok (found, st')) ->
               arrives st' st n job).
    { intros o n [H | H]; injection H as H;
        destruct (arrives_move job o n st) as [H1 H2];
        [rewrite H in H1; exact H1 | rewrite H in H2; exact H2]. }
    unfold EV_IS_JOB_RENDER, EV_IS_JOB_THUMBNAIL.
    destruct (async job) eqn:Ha, (job_kind job) eqn:Hk, p;
      try discriminate; intros H;
      (eapply routed_arrives;
       [ unfold well_formed; rewrite Ha, Hk; first [reflexivity | discriminate]
       | | eapply Hmove; eauto | exact Hst ]);
      unfold candidates; rewrite Ha, ?Hk; simpl; tauto.
  - intros job found st'. unfold ev_job_queue_remove_job, remove_job_from_async_queue.
    assert (Hone : forall q,
               Ok (remove_job_from_queue_locked q job st) = Ok (found, st') ->
               forall q0 j0, arrives st' st q0 j0).
    { intros q H q0 j0. injection H as H.
      pose proof (arrives_remove q job st q0 j0) as Hw. now rewrite H in Hw. }
    assert (Htwo : forall h l,
               Ok (or_else (remove_job_from_queue_locked h job st)
                     (remove_job_from_queue_locked l job)) = Ok (found, st') ->
               forall q0 j0, arrives st' st q0 j0).
    { intros h l H q0 j0. injection H as H. unfold or_else in H.
      pose proof (arrives_remove h job st q0 j0) as Hh.
      destruct (remove_job_from_queue_locked h job st) as [[|] st1]; simpl in Hh.
      - injection H as _ <-. exact Hh.
      - pose proof (arrives_remove l job st1 q0 j0) as Hl. rewrite H in Hl.
        exact (arrives_trans _ _ _ _ _ Hl Hh). }
    unfold EV_IS_JOB_RENDER, EV_IS_JOB_THUMBNAIL, EV_IS_JOB_LINKS, EV_IS_JOB_LOAD,
      EV_IS_JOB_FONTS, EV_IS_JOB_PRINT.
    destruct (async job), (job_kind job);
      try discriminate; intros H;
      (apply (routed_subset st' st); [| exact Hst]);
      first [eapply Hone; exact H | eapply Htwo; exact H].
  - intros job st' H. unfold job_finished_cb in H.
    apply (routed_subset st' st); [| exact Hst]. intros q0 j0.
    exact (arrives_trans _ _ _ _ _ (arrives_run_next _ _ q0 j0 H)
             (arrives_same_queues _ _ q0 j0 eq_refl)).
  - intros job st' H. apply handle_job_queues in H.
    apply (routed_subset st' st); [| exact Hst]. intros q0 j0.
    exact (arrives_same_queues _ _ q0 j0 H).
  - intros job st' H.
    destruct (search_cases st)
      as [(q & j & rest & _ & Hhead & _ & _ & Hs) | (_ & _ & _ & Hs)];
      rewrite Hs in H; injection H as _ <-; [| exact Hst].
    apply (routed_subset _ st); [| exact Hst]. intros q0 j0.
    apply arrives_set_queue. rewrite Hhead. simpl. auto.
Qed.

Lemma jobs_stay_routed_witness :
  let A := mkJob 1 Thumbnail false in
  exists st st',
    ev_job_queue_add_job A EV_JOB_PRIORITY_LOW ev_job_queue_init = Ok st /\
    ev_job_queue_update_job A EV_JOB_PRIORITY_HIGH st = Ok (true, st') /\
    routed st'.
Proof.
  intros A.
  destruct jobs_stay_routed as [Hinit Hkept].
  exists (set_queue thumbnail_queue_low [A] ev_job_queue_init),
         (set_queue thumbnail_queue_high [A] ev_job_queue_init).
  split; [reflexivity |]. split; [reflexivity |].
  destruct (Hkept ev_job_queue_init Hinit) as (_ & _ & Hadd & _).
  pose proof (Hadd A EV_JOB_PRIORITY_LOW _ eq_refl) as Hst.
  destruct (Hkept _ Hst) as (_ & _ & _ & Hupd & _).
  exact (Hupd A EV_JOB_PRIORITY_HIGH true _ eq_refl).
Defined.

(** ** Changing the priority and back *)

Section BackAndForth.

Lemma opposite_involutive p : opposite (opposite p) = p.
Proof. now destruct p. Qed.

Lemma occurrences_zero job st :
  occurrences job st = 0 -> forall q, ~ In job (queue q st).
Proof.
  destruct st as [[li rh rl th tl lo fo pr ah al] b c f].
  unfold occurrences, all_queues, queue. simpl. intros H q Hin.
  apply (count_occ_In EvJob_eq_dec) in Hin. destruct q; simpl in Hin; lia.
Qed.

End BackAndForth.

(** X10.  A job does not keep its place through a change of priority and
    back.  Take a job that waits once in the queue of one priority and
    not in the queue of the other: after a change to the other priority
    and a change back, both of which return true, the job is at the tail
    of the queue it started in, behind the jobs that were queued after
    it, and every other queue is as it was. *)
Theorem priority_change_and_back : forall job p st old_queue new_queue l1 l2,
  has_priority job ->
  find_queue job (opposite p) = Ok old_queue ->
  find_queue job p = Ok new_queue ->
  queue old_queue st = l1 ++ job :: l2 -> ~ In job l1 ->
  ~ In job (queue new_queue st) ->
  exists st1 st2,
    ev_job_queue_update_job job p st = Ok (true, st1) /\
    ev_job_queue_update_job job (opposite p) st1 = Ok (true, st2) /\
    queue old_queue st2 = l1 ++ l2 ++ [job] /\
    (forall q, q <> old_queue -> queue q st2 = queue q st).
Proof.
  intros job p st old_queue new_queue l1 l2 Hp Hold Hnew Hq Hnot Hnew_free.
  pose proof (has_priority_two_queues job p old_queue new_queue Hold Hnew Hp) as Hne.
  destruct (update_moves_first job p st old_queue new_queue l1 l2 Hp Hold Hnew Hq Hnot)
    as (st1 & Hupd1 & Hold1 & Hnew1 & Hrest1 & _).
  destruct (update_moves_first job (opposite p) st1 new_queue old_queue
              (queue new_queue st) [] Hp)
    as (st2 & Hupd2 & Hnew2 & Hold2 & Hrest2 & _).
  - now rewrite opposite_involutive.
  - exact Hold.
  - exact Hnew1.
  - exact Hnew_free.
  - exists st1, st2. split; [exact Hupd1 |]. split; [exact Hupd2 |]. split.
    + now rewrite Hold2, Hold1, <- app_assoc.
    + intros q Hqo. destruct (GQueue_eq_dec q new_queue) as [-> | Hqn].
      * now rewrite Hnew2, app_nil_r.
      * now rewrite (Hrest2 q Hqn Hqo), (Hrest1 q Hqo Hqn).
Qed.

Lemma priority_change_and_back_witness :
  let A := mkJob 1 Render false in
  let B := mkJob 2 Render false in
  let C := mkJob 3 Render false in
  let st := set_queue render_queue_low [A; B; C] ev_job_queue_init in
  exists st1 st2,
    ev_job_queue_update_job A EV_JOB_PRIORITY_HIGH st = Ok (true, st1) /\
    ev_job_queue_update_job A EV_JOB_PRIORITY_LOW st1 = Ok (true, st2) /\
    queue render_queue_low st2 = [B; C; A].
Proof.
  intros A B C st.
  destruct (priority_change_and_back A EV_JOB_PRIORITY_HIGH st
              render_queue_low render_queue_high [] [B; C])
    as (st1 & st2 & H1 & H2 & Hq & _).
  - left. reflexivity.
  - reflexivity.
  - reflexivity.
  - reflexivity.
  - simpl. tauto.
  - simpl. tauto.
  - exists st1, st2. split; [exact H1 |]. split; [exact H2 | exact Hq].
Defined.

(** X11.  A job that is queued at most once can be removed at most once:
    whatever the first call of [ev_job_queue_remove_job] returns, a second
    call on the state it leaves returns false and changes nothing. *)
Theorem second_remove_finds_nothing : forall job st,
  well_formed job ->
  occurrences job st <= 1 ->
  exists found st1,
    ev_job_queue_remove_job job st = Ok (found, st1) /\
    ev_job_queue_remove_job job st1 = Ok (false, st1).
Proof.
  intros job st Hwf Hocc.
  destruct (remove_job_cases job st Hwf)
    as [(before & q & after & l1 & l2 & _ & _ & Hq & _ & Hr) | (Hnone & Hr)].
  - exists true, (set_queue q (l1 ++ l2) st). split; [exact Hr |].
    pose proof (occurrences_set_queue q job l1 l2 st Hq) as Hone.
    assert (Hzero : occurrences job (set_queue q (l1 ++ l2) st) = 0) by lia.
    destruct (remove_job_cases job (set_queue q (l1 ++ l2) st) Hwf)
      as [(_ & q' & _ & l1' & l2' & _ & _ & Hq' & _ & _) | (_ & Hr')].
    + exfalso. apply (occurrences_zero job _ Hzero q'). rewrite Hq'. apply in_elt.
    + exact Hr'.
  - exists false, st. split; exact Hr.
Qed.

Lemma second_remove_finds_nothing_witness :
  let A := mkJob 1 Print false in
  let st := set_queue print_queue [mkJob 2 Print false; A] ev_job_queue_init in
  exists found st1,
    ev_job_queue_remove_job A st = Ok (found, st1) /\
    ev_job_queue_remove_job A st1 = Ok (false, st1).
Proof.
  intros A st.
  apply second_remove_finds_nothing.
  - intros H. discriminate H.
  - assert (H : occurrences A st = 1) by reflexivity. rewrite H. apply le_n.
Defined.

(** ** The notification of a blocking job *)

Section Notification.

Lemma unconnected_same_effects st st' :
  calls st' = calls st -> in_flight st' = in_flight st ->
  blocking_jobs_unconnected st -> blocking_jobs_unconnected st'.
Proof.
  intros Hc Hf Hst job Ha. unfold handlers. rewrite Hc, Hf. exact (Hst job Ha).
Qed.

Lemma count_connect_worker_calls c job x :
  count_occ Call_eq_dec (c ++ run_call job ++ [g_idle_add_notify_finished job])
    (g_signal_connect_finished x)
  = count_occ Call_eq_dec c (g_signal_connect_finished x).
Proof.
  rewrite !count_occ_app.
  unfold run_call, EV_IS_JOB_RENDER, EV_IS_JOB_THUMBNAIL, EV_IS_JOB_LINKS,
    EV_IS_JOB_LOAD, EV_IS_JOB_FONTS, EV_IS_JOB_PRINT.
  destruct (job_kind job); simpl;
    repeat match goal with
           | |- context [Call_eq_dec ?a ?b] =>
               destruct (Call_eq_dec a b); try discriminate
           end; lia.
Qed.

Lemma unconnected_handle_job job st st' :
  handle_job job st = Ok st' ->
  blocking_jobs_unconnected st -> blocking_jobs_unconnected st'.
Proof.
  intros H Hst x Hx. destruct (Hst x Hx) as [Hzero Hnot].
  destruct (async job) eqn:Ha.
  - destruct (EvJobKind_eq_dec (job_kind job) Render) as [Hk | Hk].
    + rewrite (handle_job_async job st Ha Hk) in H. injection H as <-.
      unfold handlers. cbn [calls in_flight]. rewrite count_connect. split.
      * fold (handlers x st). rewrite Hzero.
        destruct (EvJob_eq_dec job x) as [-> | _]; [congruence | reflexivity].
      * rewrite in_app_iff. simpl.
        intros [Hin | [-> | []]]; [contradiction | congruence].
    + rewrite (handle_job_asserts job st Ha Hk) in H. discriminate H.
  - rewrite (handle_job_sync job st Ha) in H. injection H as <-.
    unfold handlers. cbn [calls in_flight]. rewrite count_connect_worker_calls.
    split; assumption.
Qed.

Lemma effects_set_queue q l st :
  calls (set_queue q l st) = calls st /\ in_flight (set_queue q l st) = in_flight st.
Proof. split; reflexivity. Qed.

Lemma effects_remove q job st :
  calls (snd (remove_job_from_queue_locked q job st)) = calls st /\
  in_flight (snd (remove_job_from_queue_locked q job st)) = in_flight st.
Proof.
  unfold remove_job_from_queue_locked.
  destruct (GLib.g_queue_find (queue q st) job); split; reflexivity.
Qed.

Lemma unconnected_run_next st st' :
  ev_job_queue_run_next st = Ok st' ->
  blocking_jobs_unconnected st -> blocking_jobs_unconnected st'.
Proof.
  unfold ev_job_queue_run_next, g_queue_pop_head.
  destruct (GLib.g_queue_pop_head (queue async_render_queue_high st)) as [[j|] l].
  - intros H Hst. apply (unconnected_handle_job j _ st' H).
    exact (unconnected_same_effects st _ eq_refl eq_refl Hst).
  - destruct (GLib.g_queue_pop_head
                (queue async_render_queue_low (set_queue async_render_queue_high l st)))
      as [[j|] l'].
    + intros H Hst. apply (unconnected_handle_job j _ st' H).
      exact (unconnected_same_effects st _ eq_refl eq_refl Hst).
    + intros H Hst. injection H as <-.
      exact (unconnected_same_effects st _ eq_refl eq_refl Hst).
Qed.

Lemma finished_unconnected job st :
  async job = false -> blocking_jobs_unconnected st ->
  ev_job_finished job st = Ok st.
Proof.
  intros Ha Hst. destruct (Hst job Ha) as [Hzero Hnot].
  unfold ev_job_finished, landed. rewrite Hzero.
  apply find_none_iff in Hnot. rewrite Hnot. simpl. now destruct st.
Qed.

End Notification.

(** X12.  The notification of a blocking job does not reach the async
    dispatcher.  [handle_job] connects [job_finished_cb] to async jobs
    only, and this is kept by every function of the file; so when the idle
    callback [notify_finished] emits the "finished" signal of a blocking
    job, [job_finished_cb] does not run: the state is unchanged, and
    [FALSE] is returned, which ends the idle source. *)
Theorem notify_finished_of_blocking_job :
  blocking_jobs_unconnected ev_job_queue_init /\
  forall st, blocking_jobs_unconnected st ->
    (forall job, async job = false -> notify_finished job st = Ok (false, st)) /\
    (forall job st', handle_job job st = Ok st' -> blocking_jobs_unconnected st') /\
    (forall job p st',
        ev_job_queue_add_job job p st = Ok st' -> blocking_jobs_unconnected st') /\
    (forall job st',
        job_finished_cb job st = Ok st' -> blocking_jobs_unconnected st') /\
    (forall job p found st',
        ev_job_queue_update_job job p st = Ok (found, st') ->
        blocking_jobs_unconnected st') /\
    (forall job found st',
        ev_job_queue_remove_job job st = Ok (found, st') ->
        blocking_jobs_unconnected st') /\
    (forall job st',
        search_for_jobs_unlocked st = (job, st') -> blocking_jobs_unconnected st').
Proof.
  split; [intros job _; split; [reflexivity | simpl; tauto] |].
  intros st Hst.
  split; [| split; [| split; [| split; [| split; [| split]]]]].
  - intros job Ha. unfold notify_finished.
    now rewrite (finished_unconnected job st Ha Hst).
  - intros job st' H. exact (unconnected_handle_job job st st' H Hst).
  - intros job p st'. unfold ev_job_queue_add_job.
    destruct (find_queue job p) as [q|]; [| discriminate]. cbn [bind].
    unfold add_job_to_queue_locked, add_job_to_async_queue.
    destruct (negb (async job)).
    + intros H. injection H as <-.
      exact (unconnected_same_effects st _ eq_refl eq_refl Hst).
    + destruct (negb (async_rendering (g_queue_push_tail q job st))).
      * intros H. apply (unconnected_run_next _ st' H).
        exact (unconnected_same_effects st _ eq_refl eq_refl Hst).
      * intros H. injection H as <-.
        exact (unconnected_same_effects st _ eq_refl eq_refl Hst).
  - intros job st' H. unfold job_finished_cb in H.
    apply (unconnected_run_next _ st' H).
    exact (unconnected_same_effects st _ eq_refl eq_refl Hst).
  - intros job p found st'. unfold ev_job_queue_update_job.
    assert (Hmove : forall o n,
               (Ok (move_job job o n st) = Ok (found, st') \/
                Ok (move_job_async job o n st) = Ok (found, st')) ->
               calls st' = calls st /\ in_flight st' = in_flight st).
    { intros o n H.
      unfold move_job, move_job_async, add_job_to_queue_locked,
        add_job_to_async_queue in H.
      pose proof (effects_remove o job st) as He.
      destruct (remove_job_from_queue_locked o job st) as [[|] st1];
        simpl in He; destruct H as [H | H]; injection H as _ <-; exact He. }
    destruct (async job), (EV_IS_JOB_RENDER job), (EV_IS_JOB_THUMBNAIL job), p;
      try discriminate; intros H;
      (destruct (Hmove _ _ (or_introl H)) as [Hc Hf]
       || destruct (Hmove _ _ (or_intror H)) as [Hc Hf]);
      exact (unconnected_same_effects st st' Hc Hf Hst).
  - intros job found st'. unfold ev_job_queue_remove_job, remove_job_from_async_queue.
    assert (Hone : forall q,
               Ok (remove_job_from_queue_locked q job st) = Ok (found, st') ->
               calls st' = calls st /\ in_flight st' = in_flight st).
    { intros q H. injection H as H.
      pose proof (effects_remove q job st) as He. now rewrite H in He. }
    assert (Htwo : forall h l,
               Ok (or_else (remove_job_from_queue_locked h job st)
                     (remove_job_from_queue_locked l job)) = Ok (found, st') ->
               calls st' = calls st /\ in_flight st' = in_flight st).
    { intros h l H. injection H as H. unfold or_else in H.
      pose proof (effects_remove h job st) as Hh.
      destruct (remove_job_from_queue_locked h job st) as [[|] st1]; simpl in Hh.
      - injection H as _ <-. exact Hh.
      - pose proof (effects_remove l job st1) as Hl. rewrite H in Hl. simpl in Hl.
        destruct Hh as [<- <-]. exact Hl. }
    destruct (async job), (EV_IS_JOB_RENDER job), (EV_IS_JOB_THUMBNAIL job),
      (EV_IS_JOB_LINKS job), (EV_IS_JOB_LOAD job), (EV_IS_JOB_FONTS job),
      (EV_IS_JOB_PRINT job);
      try discriminate; intros H;
      (destruct (Hone _ H) as [Hc Hf] || destruct (Htwo _ _ H) as [Hc Hf]);
      exact (unconnected_same_effects st st' Hc Hf Hst).
  - intros job st' H.
    destruct (search_cases st)
      as [(q & j & rest & _ & _ & _ & _ & Hs) | (_ & _ & _ & Hs)];
      rewrite Hs in H; injection H as _ <-; [| exact Hst].
    exact (unconnected_same_effects st _ eq_refl eq_refl Hst).
Qed.

Lemma notify_finished_of_blocking_job_witness :
  let A := mkJob 1 Render true in
  let T := mkJob 2 Thumbnail false in
  exists st,
    ev_job_queue_add_job A EV_JOB_PRIORITY_HIGH ev_job_queue_init = Ok st /\
    in_flight st = [A] /\
    notify_finished T st = Ok (false, st).
Proof.
  intros A T.
  destruct notify_finished_of_blocking_job as [Hinit Hkept].
  destruct (Hkept ev_job_queue_init Hinit) as (_ & _ & Hadd & _).
  eexists. split; [reflexivity |]. split; [reflexivity |].
  pose proof (Hadd A EV_JOB_PRIORITY_HIGH _ eq_refl) as Hst.
  exact (proj1 (Hkept _ Hst) T eq_refl).
Defined.

(** ** The calls of the worker *)

Section WorkerCalls.

Lemma worker_turn_calls st :
  blocking_queues_hold_blocking_jobs st ->
  (exists q job st',
      worker_turn st = Ok (Some (q, job), st') /\
      blocking_queues_hold_blocking_jobs st' /\
      calls st' = calls st ++ worker_calls job /\
      async_rendering st' = async_rendering st /\
      in_flight st' = in_flight st)
  \/ worker_turn st = Ok (None, st).
Proof.
  intros Hst. unfold worker_turn.
  destruct (search_cases st)
    as [(q & job & rest & Hq & Hhead & _ & -> & ->) | (_ & -> & _ & ->)].
  - left. pose proof (scan_order_sync q Hq) as Hsync.
    assert (Ha : async job = false).
    { apply (Hst q job Hsync). rewrite Hhead. simpl. auto. }
    rewrite (handle_job_sync job _ Ha). cbn [bind].
    eexists q, job, _. split; [reflexivity |]. split; [| repeat split].
    apply (blocking_same_queues (set_queue q rest st)); [reflexivity |].
    apply blocking_set_queue; [| exact Hst].
    intros j Hin. rewrite Hhead. simpl. auto.
  - right. reflexivity.
Qed.

Lemma run_sync_calls ops : forall st,
  blocking_queues_hold_blocking_jobs st ->
  (forall job p, In (Add job p) ops -> async job = false) ->
  exists log st',
    run_sync ops st = Ok (log, st') /\
    calls st' = calls st ++ flat_map (fun e => worker_calls (snd e)) log /\
    async_rendering st' = async_rendering st /\
    in_flight st' = in_flight st.
Proof.
  induction ops as [|op ops IH]; intros st Hst Hops.
  - exists [], st. simpl. rewrite app_nil_r. auto.
  - assert (Hrest : forall job p, In (Add job p) ops -> async job = false).
    { intros j p' Hin. apply (Hops j p'). simpl. auto. }
    destruct op as [job p |].
    + destruct (add_job_sync job p st (Hops job p (or_introl eq_refl)))
        as (q0 & _ & _ & Hadd).
      destruct (IH (add_job_to_queue_locked q0 job st))
        as (log & st' & Hrun & Hcalls & Hflag & Hfl); [| exact Hrest |].
      * intros q j Hq Hin. apply in_push_tail in Hin.
        destruct Hin as [-> | Hin]; [| exact (Hst q j Hq Hin)].
        apply (Hops job p). simpl. auto.
      * exists log, st'. simpl. rewrite Hadd. simpl. rewrite Hrun. auto.
    + destruct (worker_turn_calls st Hst)
        as [(q0 & job & st1 & Hturn & Hst1 & Hcalls1 & Hflag1 & Hfl1) | Hturn].
      * destruct (IH st1 Hst1 Hrest) as (log & st' & Hrun & Hcalls & Hflag & Hfl).
        exists ((q0, job) :: log), st'. simpl. rewrite Hturn. simpl.
        rewrite Hrun. simpl. split; [reflexivity |].
        rewrite Hcalls, Hcalls1, Hflag, Hflag1, Hfl, Hfl1, <- app_assoc. auto.
      * destruct (IH st Hst Hrest) as (log & st' & Hrun & Hcalls & Hflag & Hfl).
        exists log, st'. simpl. rewrite Hturn. simpl. rewrite Hrun. auto.
Qed.

End WorkerCalls.

(** X13.  Over any sequence of additions of blocking jobs and turns of
    the worker, the calls that leave the file are exactly, for each job
    the worker popped and in the order of the pops, the run function of
    the kind of the job followed by the registration of its
    [notify_finished] idle callback.  An addition makes no call: a
    blocking job is never run by the thread that adds it.  The variables
    of the async dispatcher are not touched. *)
Theorem worker_runs_then_notifies : forall ops st,
  blocking_queues_hold_blocking_jobs st ->
  (forall job p, In (Add job p) ops -> async job = false) ->
  exists log st',
    run_sync ops st = Ok (log, st') /\
    calls st'
    = calls st ++ flat_map (fun e => run_call (snd e)
                                     ++ [g_idle_add_notify_finished (snd e)]) log /\
    (forall job, length (run_call job) = 1) /\
    async_rendering st' = async_rendering st /\
    in_flight st' = in_flight st.
Proof.
  intros ops st Hst Hops.
  destruct (run_sync_calls ops st Hst Hops) as (log & st' & Hrun & Hcalls & Hflag & Hfl).
  exists log, st'. split; [exact Hrun |]. split; [exact Hcalls |].
  split; [| split; assumption].
  intros job. unfold run_call, EV_IS_JOB_RENDER, EV_IS_JOB_THUMBNAIL,
    EV_IS_JOB_LINKS, EV_IS_JOB_LOAD, EV_IS_JOB_FONTS, EV_IS_JOB_PRINT.
  now destruct (job_kind job).
Qed.

Lemma worker_runs_then_notifies_witness :
  let L := mkJob 1 Links false in
  let F := mkJob 2 Fonts false in
  let ops := [Add F EV_JOB_PRIORITY_HIGH; Add L EV_JOB_PRIORITY_LOW;
              WorkerTurn; WorkerTurn; WorkerTurn] in
  exists log st',
    run_sync ops ev_job_queue_init = Ok (log, st') /\
    calls st' = [ev_job_links_run L; g_idle_add_notify_finished L;
                 ev_job_fonts_run F; g_idle_add_notify_finished F].
Proof.
  intros L F ops.
  destruct (worker_runs_then_notifies ops ev_job_queue_init)
    as (log & st' & Hrun & Hcalls & _).
  - intros q job _ Hin. destruct q; simpl in Hin; contradiction.
  - intros job p Hin. simpl in Hin.
    repeat (destruct Hin as [Hin | Hin];
            [first [discriminate Hin | injection Hin as <- _; reflexivity] |]).
    contradiction.
  - exists log, st'. split; [exact Hrun |].
    assert (Hlog : run_sync ops ev_job_queue_init
                   = Ok ([(links_queue, L); (fonts_queue, F)],
                         mkState (queues ev_job_queue_init) false
                           [ev_job_links_run L; g_idle_add_notify_finished L;
                            ev_job_fonts_run F; g_idle_add_notify_finished F] []))
      by reflexivity.
    rewrite Hrun in Hlog. injection Hlog as -> _. rewrite Hcalls. reflexivity.
Defined.

(** ** The async dispatcher runs every job it accepted *)

Section Continuation.

Lemma executed_started st st' x :
  calls st' = calls st ++ [g_signal_connect_finished x; ev_job_render_run x] ->
  executed st' = executed st ++ [x].
Proof.
  intros H. unfold executed. rewrite H, flat_map_app. reflexivity.
Qed.

(** The completion of the job in flight, with what it starts. *)
Lemma finished_starts_next st job :
  async_inv st -> in_flight st = [job] ->
  exists st',
    ev_job_finished job st = Ok st' /\ async_inv st' /\
    ((queued st = [] /\ queued st' = [] /\ in_flight st' = [] /\
      async_rendering st' = false /\ executed st' = executed st)
     \/ (exists x rest,
            queued st = x :: rest /\ queued st' = rest /\ in_flight st' = [x] /\
            async_rendering st' = true /\ executed st' = executed st ++ [x])).
Proof.
  intros Hinv Hfl.
  assert (Hin : In job (in_flight st)) by (rewrite Hfl; simpl; auto).
  destruct (finished_inv st job Hinv Hin) as (st' & Hfin & Hinv' & Hfl' & Hrest).
  exists st'. split; [exact Hfin |]. split; [exact Hinv' |].
  destruct Hinv as (_ & Hq & [(_ & Hnone & _) | (_ & j & Hfl0 & Hone)]).
  { rewrite Hnone in Hfl. discriminate Hfl. }
  rewrite Hfl in Hfl0. injection Hfl0 as <-.
  assert (Hcb : ev_job_finished job st
                = ev_job_queue_run_next
                    (set_async_rendering false (set_in_flight [] st))).
  { unfold ev_job_finished. rewrite Hone, Hfl. unfold landed. simpl.
    destruct (EvJob_eq_dec job job) as [_ | Hne]; [| contradiction Hne; reflexivity].
    simpl. unfold job_finished_cb.
    now destruct (ev_job_queue_run_next
                    (set_async_rendering false (set_in_flight [] st))). }
  rewrite Hcb in Hfin.
  destruct (run_next_starts (set_async_rendering false (set_in_flight [] st)))
    as [(He & Hidle) | (x & rest & st'' & He & Hrun & Hrest' & Hbusy & _ & Hcalls)].
  - intros y Hy. destruct (Hq y Hy) as (? & ? & _). auto.
  - left. rewrite Hidle in Hfin. injection Hfin as <-.
    change (queued (set_async_rendering false (set_in_flight [] st)))
      with (queued st) in He.
    rewrite He in *. repeat split; assumption.
  - right. rewrite Hrun in Hfin. injection Hfin as <-.
    change (queued (set_async_rendering false (set_in_flight [] st)))
      with (queued st) in He.
    exists x, rest. rewrite He in *. simpl in Hfl'.
    repeat split; try assumption.
    exact (executed_started (set_async_rendering false (set_in_flight [] st)) st'' x Hcalls).
Qed.

Lemma complete_all n : forall st,
  async_inv st -> length (queued st) < n ->
  exists st',
    complete n st = Ok st' /\ async_inv st' /\
    in_flight st' = [] /\ async_rendering st' = false /\ queued st' = [] /\
    executed st' = executed st ++ queued st.
Proof.
  induction n as [|n IH]; intros st Hinv Hlen; [lia |].
  cbn [complete].
  pose proof Hinv as (_ & _ & [(Hidle & Hnone & He) | (Hbusy & j & Hfl & _)]).
  - rewrite Hnone. exists st. rewrite He, app_nil_r.
    split; [reflexivity |]. split; [exact Hinv |]. repeat split; assumption.
  - rewrite Hfl.
    destruct (finished_starts_next st j Hinv Hfl)
      as (st1 & Hfin & Hinv1 &
          [(He & He1 & Hfl1 & Hidle1 & Hex) | (x & rest & He & He1 & Hfl1 & _ & Hex)]).
    + rewrite Hfin. cbn [bind].
      exists st1. split.
      * destruct n; cbn [complete]; [reflexivity | now rewrite Hfl1].
      * rewrite He, app_nil_r. split; [exact Hinv1 |]. repeat split; assumption.
    + rewrite Hfin. cbn [bind].
      destruct (IH st1 Hinv1) as (st' & Hc & Hinv' & Hfl' & Hidle' & He' & Hex').
      { rewrite He1. rewrite He in Hlen. simpl in Hlen. lia. }
      exists st'. split; [exact Hc |]. split; [exact Hinv' |].
      rewrite Hex', Hex, He1, He, <- app_assoc. repeat split; assumption.
Qed.

End Continuation.

(** X14.  No accepted job is left behind.  In any state the dispatcher
    reaches, if the backend keeps completing the job in flight, every
    waiting job is started, one at a time, in the order high queue then
    low queue, each queue first in first out; once the last one is
    completed nothing is in flight, the flag is clear and both queues are
    empty. *)
Theorem async_jobs_all_run : forall st,
  async_reachable st ->
  exists st',
    complete (S (length (queued st))) st = Ok st' /\
    executed st' = executed st ++ queue async_render_queue_high st
                               ++ queue async_render_queue_low st /\
    in_flight st' = [] /\ async_rendering st' = false /\
    queue async_render_queue_high st' = [] /\
    queue async_render_queue_low st' = [].
Proof.
  intros st Hreach.
  destruct (complete_all (S (length (queued st))) st (reachable_inv st Hreach))
    as (st' & Hc & _ & Hfl & Hidle & He & Hex); [lia |].
  exists st'. split; [exact Hc |]. split; [exact Hex |].
  split; [exact Hfl |]. split; [exact Hidle |].
  unfold queued in He. apply app_eq_nil in He. exact He.
Qed.

Lemma async_jobs_all_run_witness :
  let A := mkJob 1 Render true in
  let B := mkJob 2 Render true in
  let C := mkJob 3 Render true in
  let st :=
    mkState (store async_render_queue_high [C]
               (store async_render_queue_low [B] (queues ev_job_queue_init))) true
      [g_signal_connect_finished A; ev_job_render_run A] [A] in
  async_reachable st /\
  exists st',
    complete 3 st = Ok st' /\ executed st' = [A; C; B] /\ in_flight st' = [].
Proof.
  intros A B C st.
  assert (Hreach : async_reachable st).
  { apply (reach_submit
             (mkState (store async_render_queue_low [B] (queues ev_job_queue_init)) true
                [g_signal_connect_finished A; ev_job_render_run A] [A])
             C EV_JOB_PRIORITY_HIGH).
    - apply (reach_submit
               (mkState (queues ev_job_queue_init) true
                  [g_signal_connect_finished A; ev_job_render_run A] [A])
               B EV_JOB_PRIORITY_LOW).
      + apply (reach_submit ev_job_queue_init A EV_JOB_PRIORITY_HIGH).
        * apply reach_init.
        * reflexivity.
        * reflexivity.
        * split; [intros q; destruct q; simpl; tauto | reflexivity].
        * reflexivity.
      + reflexivity.
      + reflexivity.
      + split; [intros q; destruct q; simpl; tauto | reflexivity].
      + reflexivity.
    - reflexivity.
    - reflexivity.
    - split; [| reflexivity].
      intros q; destruct q; simpl; try tauto. intros [H | []]. discriminate H.
    - reflexivity. }
  split; [exact Hreach |].
  destruct (async_jobs_all_run st Hreach) as (st' & Hc & Hex & Hfl & _).
  exists st'. split; [exact Hc |]. split; [exact Hex | exact Hfl].
Defined.

(** X15.  A job submitted to the idle dispatcher starts at once.  In any
    state the dispatcher reaches with the flag clear, the submission of an
    async render job returns with that job in flight and the flag set;
    the completion callback was connected to the job and then
    [ev_job_render_run] called, and both async queues are empty. *)
Theorem idle_dispatcher_starts_job : forall st job p,
  async_reachable st ->
  async_rendering st = false ->
  async job = true -> job_kind job = Render ->
  exists st',
    ev_job_queue_add_job job p st = Ok st' /\
    in_flight st' = [job] /\ async_rendering st' = true /\
    calls st' = calls st ++ [g_signal_connect_finished job; ev_job_render_run job] /\
    queue async_render_queue_high st' = [] /\
    queue async_render_queue_low st' = [].
Proof.
  intros st job p Hreach Hidle Ha Hk.
  pose proof (reachable_inv st Hreach) as (_ & _ & Hmode).
  destruct Hmode as [(_ & Hfl & He) | (Hbusy & _)]; [| congruence].
  pose proof (find_queue_async job p Ha Hk) as Hq.
  rewrite (add_job_idle job p _ st Ha Hq Hidle).
  pose proof (queued_push_tail job p st) as Hperm. rewrite He in Hperm.
  apply Permutation_length_1_inv in Hperm.
  replace (match p with
           | EV_JOB_PRIORITY_LOW => async_render_queue_low
           | EV_JOB_PRIORITY_HIGH => async_render_queue_high
           end)
    with (match p with
          | EV_JOB_PRIORITY_HIGH => async_render_queue_high
          | EV_JOB_PRIORITY_LOW => async_render_queue_low
          end) by now destruct p.
  destruct (run_next_starts
              (add_job_to_async_queue
                 (match p with
                  | EV_JOB_PRIORITY_HIGH => async_render_queue_high
                  | EV_JOB_PRIORITY_LOW => async_render_queue_low
                  end) job st))
    as [(Hnil & _) | (x & rest & st' & Hx & Hrun & Hrest & Hbusy & Hfl' & Hcalls)].
  - rewrite Hperm. intros j [<- | []]. auto.
  - rewrite Hperm in Hnil. discriminate Hnil.
  - rewrite Hperm in Hx. injection Hx as <- <-.
    exists st'. split; [exact Hrun |].
    split; [rewrite Hfl'; cbn [add_job_to_async_queue g_queue_push_tail set_queue in_flight];
            now rewrite Hfl |].
    split; [exact Hbusy |]. split; [exact Hcalls |].
    unfold queued in Hrest. apply app_eq_nil in Hrest.
    destruct Hrest as [-> ->]. auto.
Qed.

Lemma idle_dispatcher_starts_job_witness :
  let A := mkJob 1 Render true in
  exists st',
    ev_job_queue_add_job A EV_JOB_PRIORITY_LOW ev_job_queue_init = Ok st' /\
    in_flight st' = [A] /\ async_rendering st' = true.
Proof.
  intros A.
  destruct (idle_dispatcher_starts_job ev_job_queue_init A EV_JOB_PRIORITY_LOW)
    as (st' & Hadd & Hfl & Hbusy & _).
  - apply reach_init.
  - reflexivity.
  - reflexivity.
  - reflexivity.
  - exists st'. split; [exact Hadd |]. split; [exact Hfl | exact Hbusy].
Defined.
